(** * Chromatic Vision: the colour generator and the game loop of [App.tsx]

    A shallow embedding of the logic of [src/App.tsx] (both variants of the
    file share it verbatim): the helper functions [generateRandomColor] and
    [getDifferentColor], and the React component's state with its handlers
    [generateLevel], [startGame], [handleBlockClick] and the timer effect.

    Numbers.  The counters of [GameState] and the cell indices only ever hold
    integers and are modelled in [Z].  Colour channels and the difficulty
    curve are JavaScript doubles computed with [Math.log2]; they are modelled
    as real numbers ([R]), i.e. rounding is idealised away.  Every call of
    [Math.random()] is an explicit argument (a real of the interval [0,1)).
    Where rounding matters, [getDifferentColor] is given twice more: on
    binary64 numbers ([Module Double], executable) and on reals with every
    arithmetic operation followed by a rounding ([Module Rounded]).

    React.  [setGameState] with an updater function is the application of
    that function to the current state; each event (a click, a timer tick, a
    start) is processed to the end, the effect included, before the next. *)

From Stdlib Require Import ZArith Reals Lra Lia List Bool.
From Stdlib Require Import Floats.PrimFloat.
Import ListNotations.

Open Scope Z_scope.

(** ** Constants and types *)

Definition INITIAL_TIME : Z := 30.
Definition INITIAL_GRID_SIZE : Z := 2.
Definition MAX_GRID_SIZE : Z := 8.
Definition BASE_DIFFERENCE : R := 40.

Inductive Status : Set := idle | playing | gameover.

Definition Status_eqb (a b : Status) : bool :=
  match a, b with
  | idle, idle | playing, playing | gameover, gameover => true
  | _, _ => false
  end.

Record GameState : Set := mkGameState {
  score : Z;
  timeLeft : Z;
  level : Z;
  status : Status;
  gridSize : Z
}.

Record Color : Type := mkColor { h : R; s : R; l : R }.

(** The second [useState] cell: [{ base, diff, diffIndex }]. *)
Record Colors : Type := mkColors {
  base : Color;
  diff : Color;
  diffIndex : Z
}.

(** The results of the five [Math.random()] calls of one [generateLevel], in
    the order the code makes them. *)
Record Draws : Type := mkDraws {
  rH : R;       (* generateRandomColor, h *)
  rS : R;       (* generateRandomColor, s *)
  rL : R;       (* generateRandomColor, l *)
  rChange : R;  (* getDifferentColor, changeLightness *)
  rIndex : R    (* generateLevel, diffIndex *)
}.

Definition unit_interval (r : R) : Prop := (0 <= r < 1)%R.

Definition valid_draws (d : Draws) : Prop :=
  unit_interval (rH d) /\ unit_interval (rS d) /\ unit_interval (rL d) /\
  unit_interval (rChange d) /\ unit_interval (rIndex d).

(** ** Helper functions *)

(** [a > b] of JavaScript, on reals. *)
Definition Rgtb (a b : R) : bool := if Rlt_dec b a then true else false.

Definition Math_log2 (x : R) : R := (ln x / ln 2)%R.

Definition Math_floor (x : R) : Z := Zfloor x.

Definition generateRandomColor (d : Draws) : Color :=
  {| h := IZR (Math_floor (rH d * 360));
     s := IZR (Math_floor (rS d * 40) + 40);
     l := IZR (Math_floor (rL d * 40) + 30) |}.

(** The local constant [diff] of [getDifferentColor]. *)
Definition levelDiff (level : Z) : R :=
  Rmax 2 (BASE_DIFFERENCE / (1 + Math_log2 (IZR level + 1) * 0.8)).

(** The quotient under [Math.max] in [levelDiff], on its own. *)
Definition rawDiff (level : Z) : R :=
  (BASE_DIFFERENCE / (1 + Math_log2 (IZR level + 1) * 0.8))%R.

Definition getDifferentColor (base : Color) (level : Z) (random : R) : Color :=
  let diff := levelDiff level in
  let changeLightness := Rgtb random 0.5 in
  {| h := h base;
     l := if changeLightness
          then (if Rgtb (l base + diff) 90 then l base - diff else l base + diff)%R
          else l base;
     s := if negb changeLightness
          then (if Rgtb (s base + diff) 90 then s base - diff else s base + diff)%R
          else s base |}.

(** ** [getDifferentColor] on doubles

    The same function on the binary64 numbers of JavaScript.  [Math.log2] is
    not among the primitive operations and is a parameter. *)

Module Double.

Record Color : Set := mkColor { h : float; s : float; l : float }.

Definition BASE_DIFFERENCE : float := 40.

(** [Math.max] of two numbers: NaN if either is. *)
Definition Math_max (a b : float) : float :=
  if PrimFloat.is_nan a || PrimFloat.is_nan b then PrimFloat.nan
  else if PrimFloat.ltb a b then b else a.

(** The literal [0.8]: the double next to it. *)
Definition c0_8 : float := 0x1.999999999999ap-1.

Definition levelDiff (Math_log2 : float -> float) (level : float) : float :=
  Math_max 2
    (PrimFloat.div BASE_DIFFERENCE
       (PrimFloat.add 1 (PrimFloat.mul (Math_log2 (PrimFloat.add level 1)) c0_8))).

Definition getDifferentColor (Math_log2 : float -> float)
    (base : Color) (level : float) (random : float) : Color :=
  let diff := levelDiff Math_log2 level in
  let changeLightness := PrimFloat.ltb 0.5 random in
  {| h := h base;
     l := if changeLightness
          then (if PrimFloat.ltb 90 (PrimFloat.add (l base) diff)
                then PrimFloat.sub (l base) diff
                else PrimFloat.add (l base) diff)
          else l base;
     s := if negb changeLightness
          then (if PrimFloat.ltb 90 (PrimFloat.add (s base) diff)
                then PrimFloat.sub (s base) diff
                else PrimFloat.add (s base) diff)
          else s base |}.

(** [Math.log2] where level 1 needs it: [Math.log2(2)] is 1. *)
Definition log2_at_two (x : float) : float :=
  if PrimFloat.eqb x 2 then 1%float else PrimFloat.nan.

End Double.

(** ** [getDifferentColor] with rounding

    The same function on reals, every arithmetic operation and the literal
    [0.8] followed by the rounding [rnd] to a double, and [Math.log2] a
    function [log2F] of its own.  With [rnd] the identity and [log2F] the
    exact logarithm this is [getDifferentColor] above. *)

Module Rounded.

Definition levelDiff (rnd log2F : R -> R) (level : Z) : R :=
  (Rmax 2
     (rnd (BASE_DIFFERENCE /
           rnd (1 + rnd (log2F (rnd (IZR level + 1)) * rnd 0.8)))))%R.

Definition getDifferentColor (rnd log2F : R -> R)
    (base : Color) (level : Z) (random : R) : Color :=
  let diff := levelDiff rnd log2F level in
  let changeLightness := Rgtb random 0.5 in
  {| h := h base;
     l := if changeLightness
          then (if Rgtb (rnd (l base + diff)) 90
                then rnd (l base - diff) else rnd (l base + diff))%R
          else l base;
     s := if negb changeLightness
          then (if Rgtb (rnd (s base + diff)) 90
                then rnd (s base - diff) else rnd (s base + diff))%R
          else s base |}.

(** The relative error allowed to one operation, [2^-40]; rounding to the
    nearest double stays below [2^-53]. *)
Definition eps : R := (/ 1099511627776)%R.

(** [rnd] is a rounding: on magnitudes between [1/2] and [2^60], far from
    underflow and overflow, it is off by at most the relative error [eps]. *)
Definition rounds (rnd : R -> R) : Prop :=
  forall x : R,
    (/ 2 <= Rabs x <= 1152921504606846976)%R ->
    (Rabs (rnd x - x) <= eps * Rabs x)%R.

(** [log2F] is a logarithm to base 2 up to the same relative error. *)
Definition approximates_log2 (log2F : R -> R) : Prop :=
  forall x : R,
    (3 / 2 <= x <= 1152921504606846976)%R ->
    (Rabs (log2F x - Math_log2 x) <= eps * Math_log2 x)%R.

(** [a] is [b] up to a factor between [lo] and [hi]. *)
Definition within (lo hi a b : R) : Prop := (b * lo <= a <= b * hi)%R.

(** An instance of [rounds] that does round: to the nearest multiple of
    [2^-42], a fixed-point format.  Doubles are another instance. *)
Definition fixed_point (x : R) : R :=
  (IZR (Zfloor (x * 4398046511104 + / 2)) / 4398046511104)%R.

End Rounded.

(** ** The component *)

(** The component's state: the two [useState] cells and whether the interval
    held by [timerRef] is live. *)
Record App : Type := mkApp {
  gameState : GameState;
  colors : Colors;
  timer : bool
}.

Definition initialApp : App :=
  {| gameState := {| score := 0; timeLeft := INITIAL_TIME; level := 1;
                     status := idle; gridSize := INITIAL_GRID_SIZE |};
     colors := {| base := mkColor 0 0 0; diff := mkColor 0 0 0; diffIndex := -1 |};
     timer := false |}.

Definition setGameState (f : GameState -> GameState) (a : App) : App :=
  {| gameState := f (gameState a); colors := colors a; timer := timer a |}.

Definition setColors (c : Colors) (a : App) : App :=
  {| gameState := gameState a; colors := c; timer := timer a |}.

Definition clearInterval (a : App) : App :=
  {| gameState := gameState a; colors := colors a; timer := false |}.

Definition setInterval (a : App) : App :=
  {| gameState := gameState a; colors := colors a; timer := true |}.

(** The local constant [newGridSize] of [generateLevel]; [level / 3] under
    [Math.floor] is the floored quotient of [Z]. *)
Definition newGridSize (level : Z) : Z :=
  Z.min MAX_GRID_SIZE (INITIAL_GRID_SIZE + level / 3).

(** The updater [prev => ({ ...prev, gridSize: newGridSize })]. *)
Definition withGridSize (newGridSize : Z) (prev : GameState) : GameState :=
  {| score := score prev; timeLeft := timeLeft prev; level := level prev;
     status := status prev; gridSize := newGridSize |}.

Definition generateLevel (level : Z) (d : Draws) (a : App) : App :=
  let base := generateRandomColor d in
  let diff := getDifferentColor base level (rChange d) in
  let newGridSize := newGridSize level in
  let diffIndex := Math_floor (rIndex d * IZR (newGridSize * newGridSize)) in
  let a := setColors {| base := base; diff := diff; diffIndex := diffIndex |} a in
  setGameState (withGridSize newGridSize) a.

Definition startGame (d : Draws) (a : App) : App :=
  let a := setGameState (fun _ =>
    {| score := 0; timeLeft := INITIAL_TIME; level := 1;
       status := playing; gridSize := INITIAL_GRID_SIZE |}) a in
  generateLevel 1 d a.

Definition handleBlockClick (index : Z) (d : Draws) (a : App) : App :=
  match status (gameState a) with
  | playing =>
    if index =? diffIndex (colors a) then
      let nextLevel := level (gameState a) + 1 in
      let a' := setGameState (fun prev =>
        {| score := score prev + 1; timeLeft := timeLeft prev + 1;
           level := nextLevel; status := status prev;
           gridSize := gridSize prev |}) a in
      generateLevel nextLevel d a'
    else
      setGameState (fun prev =>
        {| score := score prev; timeLeft := Z.max 0 (timeLeft prev - 3);
           level := level prev; status := status prev;
           gridSize := gridSize prev |}) a
  | _ => a
  end.

(** The callback given to [setInterval]: one tick. *)
Definition intervalCallback (a : App) : App :=
  let prev := gameState a in
  if timeLeft prev <=? 1 then
    setGameState (fun prev =>
      {| score := score prev; timeLeft := 0; level := level prev;
         status := gameover; gridSize := gridSize prev |}) (clearInterval a)
  else
    setGameState (fun prev =>
      {| score := score prev; timeLeft := timeLeft prev - 1;
         level := level prev; status := status prev;
         gridSize := gridSize prev |}) a.

(** [useEffect(..., [gameState.status])]: after an event that changed the
    status, the previous effect is cleaned up and the effect runs again. *)
Definition useEffect (before after : App) : App :=
  if Status_eqb (status (gameState before)) (status (gameState after)) then after
  else
    let after := clearInterval after in
    match status (gameState after) with
    | playing => if 0 <? timeLeft (gameState after)
                 then setInterval after else clearInterval after
    | _ => clearInterval after
    end.

(** What can happen to the component: the start (or restart) button, a click
    on cell [index], and the interval firing.  [Start] and [Click] carry the
    random draws a [generateLevel] would consume. *)
Inductive Event : Type :=
| Start (d : Draws)
| Click (index : Z) (d : Draws)
| Tick.

(** The handler of an event.  The interval callback only runs while the
    interval is live. *)
Definition handle (e : Event) (a : App) : App :=
  match e with
  | Start d => startGame d a
  | Click index d => handleBlockClick index d a
  | Tick => if timer a then intervalCallback a else a
  end.

(** One event, processed to the end: the handler, then the effect. *)
Definition step (a : App) (e : Event) : App := useEffect a (handle e a).

Definition run (a : App) (events : list Event) : App := fold_left step events a.

Definition valid_event (e : Event) : Prop :=
  match e with
  | Start d | Click _ d => valid_draws d
  | Tick => True
  end.

Definition isStart (e : Event) : bool :=
  match e with Start _ => true | _ => false end.

(** The colour passed to [colorToCss] for cell [i] of the grid. *)
Definition cellColor (a : App) (i : Z) : Color :=
  if i =? diffIndex (colors a) then diff (colors a) else base (colors a).

(** The rendered grid: [Array.from({ length: gridSize * gridSize })]. *)
Definition grid (a : App) : list Color :=
  let n := gridSize (gameState a) in
  map (fun i => cellColor a (Z.of_nat i)) (seq 0 (Z.to_nat (n * n))).

(** ** Invariants of the reachable states *)

(** The interval is live exactly while the round is on, and a finished round
    has no time left. *)
Definition timer_matches_status (a : App) : Prop :=
  match status (gameState a) with
  | idle => timer a = false
  | playing => timer a = true
  | gameover => timer a = false /\ timeLeft (gameState a) = 0
  end.

Definition counters_in_range (a : App) : Prop :=
  0 <= timeLeft (gameState a) /\ 0 <= score (gameState a) /\
  1 <= level (gameState a).

Definition session_invariant (a : App) : Prop :=
  counters_in_range a /\ timer_matches_status a.

(** Once a level has been generated, the grid and the variant cell agree. *)
Definition level_invariant (a : App) : Prop :=
  status (gameState a) <> idle ->
  gridSize (gameState a) = newGridSize (level (gameState a)) /\
  0 <= diffIndex (colors a) < gridSize (gameState a) * gridSize (gameState a) /\
  diff (colors a) <> base (colors a).

Definition notStart (e : Event) : Prop := isStart e = false.

(** The counters move together: the level is one ahead of the score, the grid
    is the one of the level, and the clock holds at most the initial time
    plus one second per point. *)
Definition bookkeeping_invariant (a : App) : Prop :=
  level (gameState a) = score (gameState a) + 1 /\
  gridSize (gameState a) = newGridSize (level (gameState a)) /\
  timeLeft (gameState a) <= INITIAL_TIME + score (gameState a).

(** A colour as [generateRandomColor] makes them: whole-number channels, hue
    below 360, saturation from 40 to 79, lightness from 30 to 69. *)
Definition generated_color (c : Color) : Prop :=
  exists hz sz lz : Z,
    c = mkColor (IZR hz) (IZR sz) (IZR lz) /\
    0 <= hz <= 359 /\ 40 <= sz <= 79 /\ 30 <= lz <= 69.


(** * Properties *)

(** ** Grid size *)

Section GridSize.

Lemma newGridSize_range (L : Z) : 0 <= L -> 2 <= newGridSize L <= 8.
Proof.
  intros HL. unfold newGridSize, MAX_GRID_SIZE, INITIAL_GRID_SIZE.
  assert (0 <= L / 3) by (apply Z.div_pos; lia). lia.
Qed.

Lemma newGridSize_mono (L L' : Z) : L <= L' -> newGridSize L <= newGridSize L'.
Proof.
  intros HL. unfold newGridSize.
  assert (L / 3 <= L' / 3) by (apply Z.div_le_mono; lia). lia.
Qed.

Lemma newGridSize_saturates (L : Z) : 18 <= L -> newGridSize L = 8.
Proof.
  intros HL. unfold newGridSize, MAX_GRID_SIZE, INITIAL_GRID_SIZE.
  assert (18 / 3 <= L / 3) by (apply Z.div_le_mono; lia).
  change (18 / 3) with 6 in *. lia.
Qed.

Lemma generateLevel_gridSize (L : Z) (d : Draws) (a : App) :
  gridSize (gameState (generateLevel L d a)) = newGridSize L.
Proof. reflexivity. Qed.

End GridSize.

(** C6.  The grid size [generateLevel] computes for a level [L >= 1] is
    [min(8, 2 + floor(L/3))]; it lies in [2,8], is non-decreasing in [L] and
    saturates at 8 (from level 18 on); it is 5 at level 9 and 8 at level 19. *)
Theorem C6_grid_size_for_level (L : Z) (d : Draws) (a : App) :
  1 <= L ->
  gridSize (gameState (generateLevel L d a)) = Z.min 8 (2 + L / 3) /\
  2 <= newGridSize L <= 8 /\
  (forall L', L <= L' -> newGridSize L <= newGridSize L') /\
  (18 <= L -> newGridSize L = 8) /\
  newGridSize 9 = 5 /\ newGridSize 19 = 8.
Proof.
  intros HL. rewrite generateLevel_gridSize. repeat split.
  - apply newGridSize_range; lia.
  - apply newGridSize_range; lia.
  - intros L'. apply newGridSize_mono.
  - apply newGridSize_saturates.
Qed.

Lemma C6_grid_size_for_level_witness :
  gridSize (gameState (generateLevel 9 (mkDraws 0 0 0 0 0) initialApp))
  = Z.min 8 (2 + 9 / 3).
Proof.
  exact (proj1 (C6_grid_size_for_level 9 (mkDraws 0 0 0 0 0) initialApp ltac:(lia))).
Defined.

(** ** The difficulty curve *)

Section DifficultyCurve.

Open Scope R_scope.

Lemma ln2_pos : 0 < ln 2.
Proof. rewrite <- ln_1. apply ln_increasing; lra. Qed.

Lemma ln_le_mono (x y : R) : 0 < x -> x <= y -> ln x <= ln y.
Proof.
  intros Hx [Hlt | ->]; [left; now apply ln_increasing | right; reflexivity].
Qed.

Lemma Math_log2_lt (x y : R) : 0 < x -> x < y -> Math_log2 x < Math_log2 y.
Proof.
  intros Hx Hxy. unfold Math_log2.
  apply Rmult_lt_compat_r; [apply Rinv_0_lt_compat, ln2_pos | now apply ln_increasing].
Qed.

Lemma Math_log2_ge_1 (x : R) : 2 <= x -> 1 <= Math_log2 x.
Proof.
  intros Hx. unfold Math_log2.
  assert (H2 := ln2_pos).
  assert (Hl : ln 2 <= ln x) by (apply ln_le_mono; lra).
  apply Rmult_le_reg_r with (ln 2); [exact H2 |].
  unfold Rdiv. rewrite Rmult_assoc, Rinv_l by lra. lra.
Qed.

Lemma levelDiff_rawDiff (level : Z) : levelDiff level = Rmax 2 (rawDiff level).
Proof. reflexivity. Qed.

Lemma denominator_ge (a : Z) :
  (1 <= a)%Z -> 1.8 <= 1 + Math_log2 (IZR a + 1) * 0.8.
Proof.
  intros Ha. apply IZR_le in Ha.
  assert (1 <= Math_log2 (IZR a + 1)) by (apply Math_log2_ge_1; lra). lra.
Qed.

Lemma denominator_lt (a b : Z) :
  (1 <= a)%Z -> (a < b)%Z ->
  1 + Math_log2 (IZR a + 1) * 0.8 < 1 + Math_log2 (IZR b + 1) * 0.8.
Proof.
  intros Ha Hab. apply IZR_le in Ha. apply IZR_lt in Hab.
  assert (Math_log2 (IZR a + 1) < Math_log2 (IZR b + 1))
    by (apply Math_log2_lt; lra).
  lra.
Qed.

Lemma rawDiff_pos (a : Z) : (1 <= a)%Z -> 0 < rawDiff a.
Proof.
  intros Ha. assert (H := denominator_ge a Ha).
  unfold rawDiff, BASE_DIFFERENCE. apply Rdiv_lt_0_compat; lra.
Qed.

Lemma rawDiff_lt (a b : Z) : (1 <= a)%Z -> (a < b)%Z -> rawDiff b < rawDiff a.
Proof.
  intros Ha Hab. unfold rawDiff, BASE_DIFFERENCE, Rdiv.
  assert (Hda := denominator_ge a Ha).
  assert (Hlt := denominator_lt a b Ha Hab).
  apply Rmult_lt_compat_l; [lra |].
  apply Rinv_lt_contravar; [apply Rmult_lt_0_compat; lra | exact Hlt].
Qed.

Lemma levelDiff_ge_2 (a : Z) : 2 <= levelDiff a.
Proof. unfold levelDiff. apply Rmax_l. Qed.

Lemma levelDiff_le (a b : Z) : (1 <= a)%Z -> (a <= b)%Z -> levelDiff b <= levelDiff a.
Proof.
  intros Ha Hab. rewrite !levelDiff_rawDiff.
  destruct (Z.eq_dec a b) as [-> | Hne]; [lra |].
  assert (H := rawDiff_lt a b Ha ltac:(lia)).
  apply Rmax_lub; [apply Rmax_l |].
  apply Rle_trans with (rawDiff a); [lra | apply Rmax_r].
Qed.

Lemma levelDiff_lt (a b : Z) :
  (1 <= a)%Z -> (a < b)%Z -> 2 < levelDiff a -> levelDiff b < levelDiff a.
Proof.
  intros Ha Hab. rewrite !levelDiff_rawDiff. intros H2.
  assert (H := rawDiff_lt a b Ha Hab).
  assert (Hr : Rmax 2 (rawDiff a) = rawDiff a).
  { unfold Rmax in *. destruct (Rle_dec 2 (rawDiff a)); lra. }
  rewrite Hr in *. apply Rmax_lub_lt; lra.
Qed.

(** The clamp of [Math.max] is reached exactly when the quotient is at most 2. *)
Lemma levelDiff_eq_2 (a : Z) : levelDiff a = 2 <-> rawDiff a <= 2.
Proof.
  rewrite levelDiff_rawDiff. unfold Rmax.
  destruct (Rle_dec 2 (rawDiff a)); split; intros; lra.
Qed.

Lemma rawDiff_le_2 (a : Z) :
  (1 <= a)%Z -> (rawDiff a <= 2 <-> 95 * ln 2 <= 4 * ln (IZR a + 1)).
Proof.
  intros Ha. assert (Hd := denominator_ge a Ha). assert (H2 := ln2_pos).
  unfold rawDiff, BASE_DIFFERENCE.
  set (D := 1 + Math_log2 (IZR a + 1) * 0.8) in *.
  assert (HD : 40 / D <= 2 <-> 20 <= D).
  { split; intros H.
    - apply Rmult_le_compat_r with (r := D) in H; [| lra].
      unfold Rdiv in H. rewrite Rmult_assoc, Rinv_l in H by lra. lra.
    - apply Rmult_le_reg_r with D; [lra |].
      unfold Rdiv. rewrite Rmult_assoc, Rinv_l by lra. lra. }
  rewrite HD. unfold D, Math_log2.
  set (x := ln (IZR a + 1)).
  assert (Hx : x / ln 2 * ln 2 = x).
  { unfold Rdiv. rewrite Rmult_assoc, Rinv_l by lra. lra. }
  split; intros H.
  - assert (23.75 <= x / ln 2) by lra.
    apply Rmult_le_compat_r with (r := ln 2) in H0; [| lra]. lra.
  - assert (23.75 <= x / ln 2); [| lra].
    apply Rmult_le_reg_r with (ln 2); [lra |]. lra.
Qed.

Lemma ln_pow4_pow95 (a : Z) :
  (1 <= a)%Z -> (95 * ln 2 <= 4 * ln (IZR a + 1) <-> (2 ^ 95 <= (a + 1) ^ 4)%Z).
Proof.
  intros Ha. assert (Hpos : 0 < IZR a + 1) by (apply IZR_le in Ha; lra).
  replace (95 * ln 2) with (ln (2 ^ 95))
    by (rewrite ln_pow by lra; rewrite INR_IZR_INZ; simpl; lra).
  replace (4 * ln (IZR a + 1)) with (ln ((IZR a + 1) ^ 4))
    by (rewrite ln_pow by lra; rewrite INR_IZR_INZ; simpl; lra).
  rewrite <- (plus_IZR a 1), !pow_IZR.
  change (Z.of_nat 95) with 95%Z. change (Z.of_nat 4) with 4%Z.
  assert (P95 : (0 < 2 ^ 95)%Z) by (apply Z.pow_pos_nonneg; lia).
  assert (P4 : (0 < (a + 1) ^ 4)%Z) by (apply Z.pow_pos_nonneg; lia).
  split; intros H.
  - destruct (Z_lt_le_dec ((a + 1) ^ 4) (2 ^ 95)) as [Hlt | Hle]; [| exact Hle].
    exfalso. apply IZR_lt in Hlt.
    apply ln_increasing in Hlt; [lra | now apply IZR_lt].
  - apply ln_le_mono; [now apply IZR_lt | now apply IZR_le].
Qed.

Lemma pow4_threshold (a : Z) :
  (1 <= a)%Z -> ((2 ^ 95 <= (a + 1) ^ 4)%Z <-> (14107900 <= a)%Z).
Proof.
  intros Ha. split; intros H.
  - destruct (Z_lt_le_dec a 14107900) as [Hlt | Hle]; [| exact Hle].
    exfalso.
    assert (((a + 1) ^ 4 <= 14107900 ^ 4)%Z) by (apply Z.pow_le_mono_l; lia).
    assert ((14107900 ^ 4 < 2 ^ 95)%Z) by reflexivity. lia.
  - assert ((14107901 ^ 4 <= (a + 1) ^ 4)%Z) by (apply Z.pow_le_mono_l; lia).
    assert ((2 ^ 95 <= 14107901 ^ 4)%Z) by (intros E; discriminate E). lia.
Qed.

Lemma levelDiff_clamped (a : Z) :
  (1 <= a)%Z -> (levelDiff a = 2 <-> (14107900 <= a)%Z).
Proof.
  intros Ha.
  rewrite levelDiff_eq_2, (rawDiff_le_2 a Ha), (ln_pow4_pow95 a Ha).
  now apply pow4_threshold.
Qed.

End DifficultyCurve.

(** ** The variant colour *)

Section Variant.

Open Scope R_scope.

Variables (base : Color) (level : Z) (random : R).

Local Notation "'variant'" := (getDifferentColor base level random).

Lemma getDifferentColor_h : h variant = h base.
Proof. reflexivity. Qed.

(** [Math.random() > 0.5]: lightness moves by [levelDiff], saturation stays. *)
Lemma getDifferentColor_lightness :
  0.5 < random ->
  s variant = s base /\
  (l variant = l base + levelDiff level \/
   l variant = l base - levelDiff level) /\
  (l variant = l base + levelDiff level -> l base + levelDiff level <= 90).
Proof.
  intros Hr. unfold getDifferentColor, Rgtb; simpl.
  destruct (Rlt_dec 0.5 random) as [_ | n]; [simpl | contradiction].
  assert (H2 := levelDiff_ge_2 level).
  destruct (Rlt_dec 90 (l base + levelDiff level)); repeat split; auto; lra.
Qed.

(** Otherwise saturation moves by [levelDiff] and lightness stays. *)
Lemma getDifferentColor_saturation :
  ~ 0.5 < random ->
  l variant = l base /\
  (s variant = s base + levelDiff level \/
   s variant = s base - levelDiff level) /\
  (s variant = s base + levelDiff level -> s base + levelDiff level <= 90).
Proof.
  intros Hr. unfold getDifferentColor, Rgtb; simpl.
  destruct (Rlt_dec 0.5 random) as [y | _]; [contradiction | simpl].
  assert (H2 := levelDiff_ge_2 level).
  destruct (Rlt_dec 90 (s base + levelDiff level)); repeat split; auto; lra.
Qed.

Lemma Rabs_shift (x d : R) :
  0 <= d -> forall y, y = x + d \/ y = x - d -> Rabs (y - x) = d.
Proof.
  intros Hd y [-> | ->].
  - replace (x + d - x) with d by lra. now apply Rabs_pos_eq.
  - replace (x - d - x) with (- d) by lra. rewrite Rabs_Ropp. now apply Rabs_pos_eq.
Qed.

Lemma getDifferentColor_one_channel :
  h variant = h base /\
  ((l variant <> l base /\
    Rabs (l variant - l base) = levelDiff level /\ s variant = s base) \/
   (s variant <> s base /\
    Rabs (s variant - s base) = levelDiff level /\ l variant = l base)).
Proof.
  split; [reflexivity |].
  assert (H2 := levelDiff_ge_2 level).
  destruct (Rlt_dec 0.5 random) as [Hr | Hr].
  - left. destruct (getDifferentColor_lightness Hr) as (Hs & Hl & _).
    repeat split; [destruct Hl; lra | apply Rabs_shift; [lra | exact Hl] | exact Hs].
  - right. destruct (getDifferentColor_saturation Hr) as (Hl & Hs & _).
    repeat split; [destruct Hs; lra | apply Rabs_shift; [lra | exact Hs] | exact Hl].
Qed.

Lemma getDifferentColor_neq : variant <> base.
Proof.
  intros E. destruct getDifferentColor_one_channel as [_ [[H _] | [H _]]];
    apply H; now rewrite E.
Qed.

End Variant.

(** C7 (as the code has it).  For positive integer levels the magnitude
    [levelDiff] is at least 2, hence never zero; it never increases with the
    level and strictly decreases as long as it is above 2; and [Math.max]
    clamps it to exactly 2 from level 14107900 on (and at no earlier level). *)
Theorem C7_magnitude_decreases_to_floor (a b : Z) :
  (1 <= a)%Z -> (a <= b)%Z ->
  (2 <= levelDiff a)%R /\ levelDiff a <> 0%R /\
  (levelDiff b <= levelDiff a)%R /\
  ((a < b)%Z -> (2 < levelDiff a)%R -> (levelDiff b < levelDiff a)%R) /\
  (levelDiff a = 2%R <-> (14107900 <= a)%Z).
Proof.
  intros Ha Hab. assert (H2 := levelDiff_ge_2 a).
  repeat split.
  - exact H2.
  - lra.
  - now apply levelDiff_le.
  - intros Hlt. now apply levelDiff_lt.
  - now apply levelDiff_clamped.
  - now apply levelDiff_clamped.
Qed.

Lemma C7_magnitude_decreases_to_floor_witness :
  (2 <= levelDiff 1)%R /\ levelDiff 1 <> 0%R /\
  (levelDiff 2 <= levelDiff 1)%R /\
  ((1 < 2)%Z -> (2 < levelDiff 1)%R -> (levelDiff 2 < levelDiff 1)%R) /\
  (levelDiff 1 = 2%R <-> (14107900 <= 1)%Z).
Proof.
  exact (C7_magnitude_decreases_to_floor 1 2 ltac:(lia) ltac:(lia)).
Defined.

(** C7, the claim as stated, fails: the magnitude reaches 2 (at level
    14107900), and from there on it no longer decreases. *)
Lemma C7_magnitude_reaches_two :
  levelDiff 14107900 = 2%R /\ levelDiff 14107901 = levelDiff 14107900.
Proof.
  assert (A : levelDiff 14107900 = 2%R) by (apply levelDiff_clamped; lia).
  assert (B : levelDiff 14107901 = 2%R) by (apply levelDiff_clamped; lia).
  split; [exact A | now rewrite A, B].
Qed.

(** ** One event *)

Section OneEvent.

Variables (a : App) (d : Draws).

Lemma Status_eqb_refl (st : Status) : Status_eqb st st = true.
Proof. now destruct st. Qed.

Lemma useEffect_same_status (after : App) :
  status (gameState after) = status (gameState a) -> useEffect a after = after.
Proof. intros E. unfold useEffect. now rewrite E, Status_eqb_refl. Qed.

(** [if (gameState.status !== 'playing') return;] *)
Lemma step_Click_not_playing (index : Z) :
  status (gameState a) <> playing -> step a (Click index d) = a.
Proof.
  intros Hst. unfold step, handle, handleBlockClick.
  destruct (status (gameState a)) eqn:E; try congruence;
    apply useEffect_same_status; reflexivity.
Qed.

Lemma step_Click_incorrect (index : Z) :
  status (gameState a) = playing -> index <> diffIndex (colors a) ->
  step a (Click index d) =
  {| gameState := {| score := score (gameState a);
                     timeLeft := Z.max 0 (timeLeft (gameState a) - 3);
                     level := level (gameState a);
                     status := status (gameState a);
                     gridSize := gridSize (gameState a) |};
     colors := colors a;
     timer := timer a |}.
Proof.
  intros Hst Hne. unfold step, handle, handleBlockClick. rewrite Hst.
  apply Z.eqb_neq in Hne. rewrite Hne.
  rewrite useEffect_same_status by reflexivity.
  unfold setGameState; simpl. now rewrite ?Hst.
Qed.

Lemma step_Click_correct :
  status (gameState a) = playing ->
  step a (Click (diffIndex (colors a)) d) =
  let nextLevel := level (gameState a) + 1 in
  let base := generateRandomColor d in
  {| gameState := {| score := score (gameState a) + 1;
                     timeLeft := timeLeft (gameState a) + 1;
                     level := nextLevel;
                     status := playing;
                     gridSize := newGridSize nextLevel |};
     colors := {| base := base;
                  diff := getDifferentColor base nextLevel (rChange d);
                  diffIndex := Math_floor (rIndex d *
                                 IZR (newGridSize nextLevel * newGridSize nextLevel)) |};
     timer := timer a |}.
Proof.
  intros Hst. unfold step, handle, handleBlockClick. rewrite Hst, Z.eqb_refl.
  rewrite useEffect_same_status by (simpl; congruence).
  unfold generateLevel, setGameState, setColors, withGridSize; simpl.
  now rewrite Hst.
Qed.

Lemma step_Start :
  step a (Start d) =
  let base := generateRandomColor d in
  {| gameState := {| score := 0; timeLeft := 30; level := 1;
                     status := playing; gridSize := 2 |};
     colors := {| base := base;
                  diff := getDifferentColor base 1 (rChange d);
                  diffIndex := Math_floor (rIndex d * IZR (2 * 2)) |};
     timer := match status (gameState a) with playing => timer a | _ => true end |}.
Proof.
  unfold step, handle, useEffect, startGame, generateLevel; simpl.
  destruct (status (gameState a)); reflexivity.
Qed.

(** A tick that fires with more than one second left. *)
Lemma step_Tick_decrement :
  timer a = true -> 1 < timeLeft (gameState a) ->
  step a Tick =
  {| gameState := {| score := score (gameState a);
                     timeLeft := timeLeft (gameState a) - 1;
                     level := level (gameState a);
                     status := status (gameState a);
                     gridSize := gridSize (gameState a) |};
     colors := colors a;
     timer := true |}.
Proof.
  intros Ht Hl. unfold step, handle, intervalCallback. rewrite Ht.
  apply Z.leb_gt in Hl. rewrite Hl.
  rewrite useEffect_same_status by reflexivity.
  unfold setGameState. now rewrite Ht.
Qed.

(** A tick that fires with at most one second left ends the round and clears
    the interval. *)
Lemma step_Tick_gameover :
  timer a = true -> timeLeft (gameState a) <= 1 ->
  step a Tick =
  {| gameState := {| score := score (gameState a);
                     timeLeft := 0;
                     level := level (gameState a);
                     status := gameover;
                     gridSize := gridSize (gameState a) |};
     colors := colors a;
     timer := false |}.
Proof.
  intros Ht Hl. unfold step, handle, intervalCallback. rewrite Ht.
  apply Z.leb_le in Hl. rewrite Hl.
  unfold useEffect, setGameState, clearInterval; simpl.
  destruct (status (gameState a)); reflexivity.
Qed.

(** No interval, no tick. *)
Lemma step_Tick_cleared : timer a = false -> step a Tick = a.
Proof.
  intros Ht. unfold step, handle. rewrite Ht.
  now apply useEffect_same_status.
Qed.

End OneEvent.

(** ** Runs *)

Ltac click_cases a index d Hst Hne :=
  destruct (Z.eq_dec index (diffIndex (colors a))) as [-> | Hne];
  [ destruct (status (gameState a)) eqn:Hst;
    [ rewrite (step_Click_not_playing a d (diffIndex (colors a))) by congruence
    | rewrite (step_Click_correct a d Hst)
    | rewrite (step_Click_not_playing a d (diffIndex (colors a))) by congruence ]
  | destruct (status (gameState a)) eqn:Hst;
    [ rewrite (step_Click_not_playing a d index) by congruence
    | rewrite (step_Click_incorrect a d index Hst Hne)
    | rewrite (step_Click_not_playing a d index) by congruence ] ].

Ltac tick_cases a Ht Hl :=
  destruct (timer a) eqn:Ht;
  [ destruct (Z_le_gt_dec (timeLeft (gameState a)) 1) as [Hl | Hl];
    [ rewrite (step_Tick_gameover a Ht Hl)
    | rewrite (step_Tick_decrement a Ht ltac:(lia)) ]
  | rewrite (step_Tick_cleared a Ht) ].

Lemma run_app (a : App) (xs ys : list Event) :
  run a (xs ++ ys) = run (run a xs) ys.
Proof. apply fold_left_app. Qed.

Lemma run_cons (a : App) (e : Event) (es : list Event) :
  run a (e :: es) = run (step a e) es.
Proof. reflexivity. Qed.

Lemma session_invariant_initial : session_invariant initialApp.
Proof.
  unfold session_invariant, counters_in_range, timer_matches_status, INITIAL_TIME;
    simpl. unfold INITIAL_TIME. repeat split; lia.
Qed.

Lemma session_invariant_step (a : App) (e : Event) :
  session_invariant a -> session_invariant (step a e).
Proof.
  unfold session_invariant, counters_in_range, timer_matches_status.
  intros [(Ht & Hs & Hl) Htm]. destruct e as [d | index d |].
  - rewrite step_Start; simpl. repeat split; try lia.
    destruct (status (gameState a)); tauto.
  - click_cases a index d Hst Hne; simpl; rewrite ?Hst in *;
      repeat split; try lia; tauto.
  - tick_cases a Htr Hle; simpl; rewrite ?Htr; repeat split; try lia; try tauto.
    destruct (status (gameState a)); try congruence. lia.
Qed.

Lemma session_invariant_run (events : list Event) (a : App) :
  session_invariant a -> session_invariant (run a events).
Proof.
  revert a. induction events as [| e es IH]; intros a Ha; [exact Ha |].
  rewrite run_cons. apply IH, session_invariant_step, Ha.
Qed.

(** [Math.floor(Math.random() * N)] is an index below [N]. *)
Lemma random_index_range (r : R) (N : Z) :
  unit_interval r -> 0 < N -> 0 <= Math_floor (r * IZR N) < N.
Proof.
  intros [H0 H1] HN. unfold Math_floor.
  assert (HB := Zfloor_bound (r * IZR N)).
  assert (HNr : (0 < IZR N)%R) by now apply IZR_lt.
  split.
  - apply Zfloor_lub. simpl. now apply Rmult_le_pos; [| left].
  - apply lt_IZR. apply Rle_lt_trans with (r * IZR N)%R; [apply HB |].
    rewrite <- (Rmult_1_l (IZR N)) at 2. now apply Rmult_lt_compat_r.
Qed.

Lemma generated_index_range (L : Z) (d : Draws) :
  valid_draws d -> 0 <= L ->
  0 <= Math_floor (rIndex d * IZR (newGridSize L * newGridSize L))
    < newGridSize L * newGridSize L.
Proof.
  intros (_ & _ & _ & _ & Hi) HL. apply random_index_range; [exact Hi |].
  assert (H := newGridSize_range L HL). nia.
Qed.

Lemma level_invariant_initial : level_invariant initialApp.
Proof. intros H. now contradiction H. Qed.

Lemma level_invariant_step (a : App) (e : Event) :
  valid_event e -> session_invariant a ->
  level_invariant a -> level_invariant (step a e).
Proof.
  unfold level_invariant.
  intros He [(_ & _ & Hlv) Htm] Ha. destruct e as [d | index d |].
  - rewrite step_Start; simpl. intros _. repeat split.
    + apply (generated_index_range 1 d He); lia.
    + apply (generated_index_range 1 d He); lia.
    + apply getDifferentColor_neq.
  - click_cases a index d Hst Hne; simpl; rewrite ?Hst in *; try exact Ha.
    intros _. repeat split.
    + apply (generated_index_range _ d He); lia.
    + apply (generated_index_range _ d He); lia.
    + apply getDifferentColor_neq.
  - unfold timer_matches_status in Htm.
    tick_cases a Htr Hle; simpl; try exact Ha; intros _; apply Ha;
      destruct (status (gameState a)); congruence.
Qed.

Lemma invariants_run (events : list Event) (a : App) :
  Forall valid_event events -> session_invariant a -> level_invariant a ->
  session_invariant (run a events) /\ level_invariant (run a events).
Proof.
  revert a. induction events as [| e es IH]; intros a Hv Hs Hl; [now split |].
  inversion Hv as [| ? ? He Hes]; subst. rewrite run_cons.
  apply IH; [exact Hes | now apply session_invariant_step |
             now apply level_invariant_step].
Qed.

Lemma counters_monotone_step (a : App) (e : Event) :
  notStart e ->
  score (gameState a) <= score (gameState (step a e)) /\
  level (gameState a) <= level (gameState (step a e)).
Proof.
  intros He. destruct e as [d | index d |]; [discriminate He | |].
  - click_cases a index d Hst Hne; simpl; lia.
  - tick_cases a Htr Hle; simpl; lia.
Qed.

Lemma counters_monotone_run (events : list Event) (a : App) :
  Forall notStart events ->
  score (gameState a) <= score (gameState (run a events)) /\
  level (gameState a) <= level (gameState (run a events)).
Proof.
  revert a. induction events as [| e es IH]; intros a Hv; [simpl; lia |].
  inversion Hv as [| ? ? He Hes]; subst. rewrite run_cons.
  destruct (counters_monotone_step a e He), (IH (step a e) Hes). lia.
Qed.

(** After the round has ended only a start changes the status, the score,
    the level or the grid. *)
Lemma gameover_frozen_step (a : App) (e : Event) :
  status (gameState a) = gameover -> notStart e ->
  status (gameState (step a e)) = gameover /\
  score (gameState (step a e)) = score (gameState a) /\
  level (gameState (step a e)) = level (gameState a) /\
  gridSize (gameState (step a e)) = gridSize (gameState a).
Proof.
  intros Hgo He. destruct e as [d | index d |]; [discriminate He | |].
  - rewrite step_Click_not_playing by congruence. now rewrite Hgo.
  - tick_cases a Htr Hle; simpl; now rewrite ?Hgo.
Qed.

Lemma gameover_frozen_run (events : list Event) (a : App) :
  status (gameState a) = gameover -> Forall notStart events ->
  status (gameState (run a events)) = gameover /\
  score (gameState (run a events)) = score (gameState a) /\
  level (gameState (run a events)) = level (gameState a) /\
  gridSize (gameState (run a events)) = gridSize (gameState a).
Proof.
  revert a. induction events as [| e es IH]; intros a Hgo Hv; [now simpl |].
  inversion Hv as [| ? ? He Hes]; subst. rewrite run_cons.
  destruct (gameover_frozen_step a e Hgo He) as (H1 & H2 & H3 & H4).
  destruct (IH (step a e) H1 Hes) as (G1 & G2 & G3 & G4).
  repeat split; congruence.
Qed.

(** With the interval cleared, ticks no longer reach the state. *)
Lemma ticks_after_clear (n : nat) (a : App) :
  timer a = false -> run a (repeat Tick n) = a.
Proof.
  intros Ht. induction n as [| n IH]; [reflexivity |].
  simpl repeat. now rewrite run_cons, step_Tick_cleared.
Qed.

(** [n+1] ticks with [n+1] seconds left and no selection end the round. *)
Lemma ticks_run_out (n : nat) (a : App) :
  timer a = true -> timeLeft (gameState a) = Z.of_nat (S n) ->
  run a (repeat Tick (S n)) =
  {| gameState := {| score := score (gameState a);
                     timeLeft := 0;
                     level := level (gameState a);
                     status := gameover;
                     gridSize := gridSize (gameState a) |};
     colors := colors a;
     timer := false |}.
Proof.
  revert a. induction n as [| n IH]; intros a Ht Hl.
  - simpl repeat. rewrite run_cons. simpl run.
    apply step_Tick_gameover; [exact Ht | lia].
  - change (repeat Tick (S (S n))) with (Tick :: repeat Tick (S n)).
    rewrite run_cons, (step_Tick_decrement a Ht) by lia.
    rewrite IH; [reflexivity | reflexivity | simpl; lia].
Qed.

(** An incorrect selection leaves the puzzle as it is, so the same index stays
    incorrect. *)
Lemma repeated_incorrect_clicks (n : nat) (a : App) (index : Z) (d : Draws) :
  status (gameState a) = playing -> index <> diffIndex (colors a) ->
  0 <= timeLeft (gameState (run a (repeat (Click index d) (S n)))).
Proof.
  revert a. induction n as [| n IH]; intros a Hst Hne.
  - simpl repeat. rewrite run_cons, step_Click_incorrect by assumption.
    simpl. lia.
  - change (repeat (Click index d) (S (S n)))
      with (Click index d :: repeat (Click index d) (S n)).
    rewrite run_cons, step_Click_incorrect by assumption.
    apply IH; simpl; assumption.
Qed.

(** ** The rendered grid *)

Lemma grid_length (a : App) :
  length (grid a) = Z.to_nat (gridSize (gameState a) * gridSize (gameState a)).
Proof. unfold grid. now rewrite length_map, length_seq. Qed.

Lemma grid_nth (a : App) (i : nat) (c : Color) :
  (i < length (grid a))%nat -> nth i (grid a) c = cellColor a (Z.of_nat i).
Proof.
  intros Hi. rewrite grid_length in Hi. unfold grid.
  rewrite (nth_indep _ c (cellColor a (Z.of_nat 0))) by
    now rewrite length_map, length_seq.
  rewrite (map_nth (fun i => cellColor a (Z.of_nat i))).
  now rewrite seq_nth.
Qed.

Lemma cellColor_variant (a : App) (i : Z) :
  diff (colors a) <> base (colors a) ->
  cellColor a i = diff (colors a) <-> i = diffIndex (colors a).
Proof.
  intros Hne. unfold cellColor.
  destruct (Z.eqb_spec i (diffIndex (colors a))); split; congruence.
Qed.

(** * The claims about the game loop *)

(** C2.  In a state with status playing, selecting the variant cell adds 1 to
    the score, to the level and to [timeLeft] (no cap), keeps the status
    playing and regenerates the level: fresh base and variant colours, the
    grid size of the new level, a fresh variant index.  In particular a start
    followed by one correct selection gives score 1, level 2, 31 seconds and a
    grid of size 2. *)
Theorem C2_correct_selection (a : App) (d d0 : Draws) :
  status (gameState a) = playing ->
  let a' := step a (Click (diffIndex (colors a)) d) in
  let g := gameState a in
  let g' := gameState a' in
  score g' = score g + 1 /\
  level g' = level g + 1 /\
  timeLeft g' = timeLeft g + 1 /\
  status g' = playing /\
  gridSize g' = Z.min 8 (2 + (level g + 1) / 3) /\
  base (colors a') = generateRandomColor d /\
  diff (colors a') =
    getDifferentColor (generateRandomColor d) (level g + 1) (rChange d) /\
  diffIndex (colors a') =
    Math_floor (rIndex d * IZR (gridSize g' * gridSize g')) /\
  let s1 := step initialApp (Start d0) in
  let s2 := gameState (step s1 (Click (diffIndex (colors s1)) d)) in
  score s2 = 1 /\ level s2 = 2 /\ timeLeft s2 = 31 /\ gridSize s2 = 2.
Proof.
  intros Hst. cbv zeta. rewrite (step_Click_correct a d Hst).
  rewrite (step_Click_correct (step initialApp (Start d0)) d)
    by now rewrite step_Start.
  rewrite step_Start. simpl. repeat split; reflexivity.
Qed.

Lemma C2_correct_selection_witness :
  let a := {| gameState := {| score := 4; timeLeft := 12; level := 5;
                              status := playing; gridSize := 3 |};
              colors := {| base := mkColor 10 50 50; diff := mkColor 10 50 60;
                           diffIndex := 7 |};
              timer := true |} in
  score (gameState (step a (Click 7 (mkDraws 0 0 0 0 0)))) = 4 + 1.
Proof.
  exact (proj1 (C2_correct_selection
    {| gameState := {| score := 4; timeLeft := 12; level := 5;
                       status := playing; gridSize := 3 |};
       colors := {| base := mkColor 10 50 50; diff := mkColor 10 50 60;
                    diffIndex := 7 |};
       timer := true |}
    (mkDraws 0 0 0 0 0) (mkDraws 0 0 0 0 0) eq_refl)).
Defined.



(** C4.  In a state with status playing, selecting a cell other than the
    variant sets [timeLeft] to [max(0, timeLeft - 3)] and changes nothing
    else: score, level, grid size, status, both colours and the variant
    index stay.  Repeating it never makes [timeLeft] negative; with 2
    seconds left the result is 0. *)
Theorem C4_incorrect_selection (a : App) (index : Z) (d : Draws) :
  status (gameState a) = playing -> index <> diffIndex (colors a) ->
  let a' := step a (Click index d) in
  let g := gameState a in
  let g' := gameState a' in
  timeLeft g' = Z.max 0 (timeLeft g - 3) /\
  score g' = score g /\ level g' = level g /\ gridSize g' = gridSize g /\
  status g' = status g /\ colors a' = colors a /\ timer a' = timer a /\
  0 <= timeLeft g' /\
  (forall n, 0 <= timeLeft (gameState (run a (repeat (Click index d) (S n))))) /\
  (timeLeft g = 2 -> timeLeft g' = 0).
Proof.
  intros Hst Hne. cbv zeta. rewrite (step_Click_incorrect a d index Hst Hne).
  simpl. repeat split; try lia.
  intros n. now apply repeated_incorrect_clicks.
Qed.

Lemma C4_incorrect_selection_witness :
  let a := {| gameState := {| score := 4; timeLeft := 2; level := 5;
                              status := playing; gridSize := 3 |};
              colors := {| base := mkColor 10 50 50; diff := mkColor 10 50 60;
                           diffIndex := 7 |};
              timer := true |} in
  timeLeft (gameState (step a (Click 3 (mkDraws 0 0 0 0 0)))) = Z.max 0 (2 - 3).
Proof.
  exact (proj1 (C4_incorrect_selection
    {| gameState := {| score := 4; timeLeft := 2; level := 5;
                       status := playing; gridSize := 3 |};
       colors := {| base := mkColor 10 50 50; diff := mkColor 10 50 60;
                    diffIndex := 7 |};
       timer := true |}
    3 (mkDraws 0 0 0 0 0) eq_refl ltac:(discriminate))).
Defined.

(** C5.  In every state reached from the initial one by any sequence of
    start, selection and tick events, [timeLeft] is not negative; from there
    on, as long as no start intervenes, score and level never decrease; and
    if the status is gameover, no sequence of ticks and selections changes
    the score, the level or the grid size (nor the status). *)
Theorem C5_session_laws (events : list Event) :
  let a := run initialApp events in
  0 <= timeLeft (gameState a) /\
  (forall more, Forall notStart more ->
     score (gameState a) <= score (gameState (run a more)) /\
     level (gameState a) <= level (gameState (run a more))) /\
  (status (gameState a) = gameover ->
   forall more, Forall notStart more ->
     status (gameState (run a more)) = gameover /\
     score (gameState (run a more)) = score (gameState a) /\
     level (gameState (run a more)) = level (gameState a) /\
     gridSize (gameState (run a more)) = gridSize (gameState a)).
Proof.
  cbv zeta. split; [| split].
  - apply (session_invariant_run events initialApp session_invariant_initial).
  - intros more. apply counters_monotone_run.
  - intros Hgo more. now apply gameover_frozen_run.
Qed.

(** C8.  In every state reached through events whose random draws lie in
    [0,1), once a level has been generated (the status is no longer idle:
    after a start, after every correct selection and from then on) the grid
    size is the one of the level, the variant index lies in
    [0, gridSize * gridSize), the grid has [gridSize * gridSize] cells and
    exactly one of them shows the variant colour, the one at the variant
    index. *)
Theorem C8_variant_cell (events : list Event) :
  Forall valid_event events ->
  let a := run initialApp events in
  let n := gridSize (gameState a) in
  status (gameState a) <> idle ->
  n = newGridSize (level (gameState a)) /\
  0 <= diffIndex (colors a) < n * n /\
  length (grid a) = Z.to_nat (n * n) /\
  exists! i : nat,
    (i < length (grid a))%nat /\
    nth i (grid a) (base (colors a)) = diff (colors a).
Proof.
  intros Hv. cbv zeta. intros Hst.
  destruct (invariants_run events initialApp Hv
              session_invariant_initial level_invariant_initial) as [_ Hl].
  destruct (Hl Hst) as (Hn & Hi & Hne).
  split; [exact Hn | split; [exact Hi | split; [apply grid_length |]]].
  exists (Z.to_nat (diffIndex (colors (run initialApp events)))).
  assert (Hlen := grid_length (run initialApp events)).
  split.
  - split; [lia |].
    rewrite grid_nth by lia. apply cellColor_variant; [exact Hne | lia].
  - intros j [Hj Hc]. rewrite grid_nth in Hc by exact Hj.
    apply cellColor_variant in Hc; [lia | exact Hne].
Qed.

Lemma C8_variant_cell_witness :
  let a := run initialApp [Start (mkDraws 0 0 0 0 0)] in
  0 <= diffIndex (colors a) < gridSize (gameState a) * gridSize (gameState a).
Proof.
  refine (proj1 (proj2 (C8_variant_cell [Start (mkDraws 0 0 0 0 0)] _ _))).
  - repeat constructor; simpl; lra.
  - intros H. lazy in H. discriminate H.
Defined.

(** C9.  While the status is idle or gameover a selection does nothing: the
    handler returns, and game state, colours and timer are what they were. *)
Theorem C9_selection_ignored (a : App) (index : Z) (d : Draws) :
  status (gameState a) = idle \/ status (gameState a) = gameover ->
  step a (Click index d) = a /\ handleBlockClick index d a = a.
Proof.
  intros H. split.
  - apply step_Click_not_playing. destruct H; congruence.
  - unfold handleBlockClick. now destruct H as [-> | ->].
Qed.

Lemma C9_selection_ignored_witness :
  step initialApp (Click 0 (mkDraws 0 0 0 0 0)) = initialApp.
Proof.
  exact (proj1 (C9_selection_ignored initialApp 0 (mkDraws 0 0 0 0 0)
                  (or_introl eq_refl))).
Defined.

(** C10.  The handler never checks the range of the index.  While the status
    is playing, every integer other than the variant index is an incorrect
    selection and costs [max(0, timeLeft - 3)]; in a reachable state this
    covers every negative index and every index from [gridSize * gridSize]
    on, none of which is a cell of the grid. *)
Theorem C10_no_range_check (a : App) (index : Z) (d : Draws) :
  status (gameState a) = playing -> index <> diffIndex (colors a) ->
  let penalised :=
    {| gameState := {| score := score (gameState a);
                       timeLeft := Z.max 0 (timeLeft (gameState a) - 3);
                       level := level (gameState a);
                       status := playing;
                       gridSize := gridSize (gameState a) |};
       colors := colors a;
       timer := timer a |} in
  step a (Click index d) = penalised /\
  forall events, Forall valid_event events -> a = run initialApp events ->
  forall j, j < 0 \/ gridSize (gameState a) * gridSize (gameState a) <= j ->
  step a (Click j d) = penalised.
Proof.
  intros Hst Hne. cbv zeta. split.
  - rewrite (step_Click_incorrect a d index Hst Hne). now rewrite Hst.
  - intros events Hv Ha j Hj.
    destruct (invariants_run events initialApp Hv
                session_invariant_initial level_invariant_initial) as [_ Hl].
    rewrite <- Ha in Hl. destruct Hl as (_ & Hi & _); [congruence |].
    rewrite (step_Click_incorrect a d j Hst) by lia. now rewrite Hst.
Qed.

Lemma C10_no_range_check_witness :
  let a := {| gameState := {| score := 0; timeLeft := 30; level := 1;
                              status := playing; gridSize := 2 |};
              colors := {| base := mkColor 10 50 50; diff := mkColor 10 50 60;
                           diffIndex := 3 |};
              timer := true |} in
  step a (Click (-1) (mkDraws 0 0 0 0 0)) =
  {| gameState := {| score := 0; timeLeft := Z.max 0 (30 - 3); level := 1;
                     status := playing; gridSize := 2 |};
     colors := colors a; timer := true |}.
Proof.
  exact (proj1 (C10_no_range_check
    {| gameState := {| score := 0; timeLeft := 30; level := 1;
                       status := playing; gridSize := 2 |};
       colors := {| base := mkColor 10 50 50; diff := mkColor 10 50 60;
                    diffIndex := 3 |};
       timer := true |}
    (-1) (mkDraws 0 0 0 0 0) eq_refl ltac:(discriminate))).
Defined.

(** ** Scenarios *)

(** A start followed by an incorrect selection: 27 seconds, the same puzzle. *)
Example scenario_start_then_miss (d d' : Draws) :
  let s1 := step initialApp (Start d) in
  let s2 := step s1 (Click (diffIndex (colors s1) + 1) d') in
  gameState s2 = mkGameState 0 27 1 playing 2 /\ colors s2 = colors s1.
Proof.
  cbv zeta. rewrite step_Click_incorrect; rewrite step_Start; simpl;
    [now split | reflexivity | lia].
Qed.

(** The start of the difficulty curve: at level 1 the magnitude is
    [40 / 1.8], about 22.2. *)
Example levelDiff_level_1 : levelDiff 1 = (40 / 1.8)%R.
Proof.
  unfold levelDiff, BASE_DIFFERENCE, Math_log2. simpl (IZR 1 + 1)%R.
  replace (1 + 1)%R with 2%R by lra.
  assert (H := ln2_pos).
  replace (ln 2 / ln 2)%R with 1%R by (field; lra).
  rewrite Rmax_right by lra. f_equal. lra.
Qed.

(** * Further properties of the code *)

(** ** Generated colours *)

Lemma generateRandomColor_generated (d : Draws) :
  valid_draws d -> generated_color (generateRandomColor d).
Proof.
  intros (Hh & Hs & Hl & _ & _).
  exists (Math_floor (rH d * 360)), (Math_floor (rS d * 40) + 40),
         (Math_floor (rL d * 40) + 30).
  assert (A := random_index_range (rH d) 360 Hh ltac:(lia)).
  assert (B := random_index_range (rS d) 40 Hs ltac:(lia)).
  assert (C := random_index_range (rL d) 40 Hl ltac:(lia)).
  repeat split; try reflexivity; lia.
Qed.

Lemma zero_draws_valid : valid_draws (mkDraws 0 0 0 0 0).
Proof. repeat split; simpl; lra. Qed.

(** X1.  [generateRandomColor]: with draws in [0,1) every channel is a whole
    number, the hue in 0..359, the saturation in 40..79 and the lightness in
    30..69. *)
Theorem X1_generateRandomColor_range (d : Draws) :
  valid_draws d ->
  exists hz sz lz : Z,
    generateRandomColor d = mkColor (IZR hz) (IZR sz) (IZR lz) /\
    0 <= hz <= 359 /\ 40 <= sz <= 79 /\ 30 <= lz <= 69.
Proof. exact (generateRandomColor_generated d). Qed.

Lemma X1_generateRandomColor_range_witness :
  exists hz sz lz : Z,
    generateRandomColor (mkDraws 0 0 0 0 0) = mkColor (IZR hz) (IZR sz) (IZR lz) /\
    0 <= hz <= 359 /\ 40 <= sz <= 79 /\ 30 <= lz <= 69.
Proof.
  exact (X1_generateRandomColor_range (mkDraws 0 0 0 0 0) zero_draws_valid).
Defined.

Lemma levelDiff_le_first (level : Z) :
  1 <= level -> (levelDiff level <= 40 / 1.8)%R.
Proof.
  intros Hl. rewrite <- levelDiff_level_1. apply levelDiff_le; lia.
Qed.

(** X2.  [getDifferentColor]: at every level from 0 on, a channel of the base
    that is at most 90 is at most 90 in the variant as well, whatever the
    draw. *)
Theorem X2_getDifferentColor_cap (base : Color) (level : Z) (random : R) :
  0 <= level ->
  (l base <= 90)%R -> (s base <= 90)%R ->
  (l (getDifferentColor base level random) <= 90)%R /\
  (s (getDifferentColor base level random) <= 90)%R.
Proof.
  intros _ Hl Hs. assert (H2 := levelDiff_ge_2 level).
  destruct (Rlt_dec 0.5 random) as [Hr | Hr].
  - destruct (getDifferentColor_lightness base level random Hr)
      as (Es & Hl' & Hcap).
    split; [| rewrite Es; exact Hs].
    destruct Hl' as [El | El]; [specialize (Hcap El) |]; rewrite El; lra.
  - destruct (getDifferentColor_saturation base level random Hr)
      as (El & Hs' & Hcap).
    split; [rewrite El; exact Hl |].
    destruct Hs' as [Es | Es]; [specialize (Hcap Es) |]; rewrite Es; lra.
Qed.

Lemma X2_getDifferentColor_cap_witness :
  (l (getDifferentColor (mkColor 120 50 80) 1 0.75) <= 90)%R /\
  (s (getDifferentColor (mkColor 120 50 80) 1 0.75) <= 90)%R.
Proof.
  apply X2_getDifferentColor_cap; [lia | simpl; lra | simpl; lra].
Defined.

Lemma variant_of_generated (c : Color) (level : Z) (random : R) :
  generated_color c -> 1 <= level ->
  h (getDifferentColor c level random) = h c /\
  (0 <= h c < 360)%R /\
  (40 <= s (getDifferentColor c level random) <= 90)%R /\
  (30 <= l (getDifferentColor c level random) <= 90)%R.
Proof.
  intros (hz & sz & lz & -> & Hh & Hs & Hl) Hlev.
  assert (D2 := levelDiff_ge_2 level).
  assert (D1 := levelDiff_le_first level Hlev).
  assert (Hh0 : (0 <= IZR hz)%R) by (apply IZR_le; lia).
  assert (Hh1 : (IZR hz < 360)%R) by (apply IZR_lt; lia).
  assert (Hs0 : (40 <= IZR sz)%R) by (apply IZR_le; lia).
  assert (Hs1 : (IZR sz <= 79)%R) by (apply IZR_le; lia).
  assert (Hl0 : (30 <= IZR lz)%R) by (apply IZR_le; lia).
  assert (Hl1 : (IZR lz <= 69)%R) by (apply IZR_le; lia).
  split; [reflexivity | split; [simpl; lra |]].
  unfold getDifferentColor, Rgtb; simpl.
  destruct (Rlt_dec 0.5 random); simpl;
    [destruct (Rlt_dec 90 (IZR lz + levelDiff level))
    |destruct (Rlt_dec 90 (IZR sz + levelDiff level))];
    repeat split; lra.
Qed.

(** X3.  [getDifferentColor] after [generateRandomColor]: at every level from
    1 on, the variant of a freshly generated colour keeps the hue (a whole
    number below 360), has its saturation between 40 and 90 and its lightness
    between 30 and 90: it is a colour of the HSL range. *)
Theorem X3_variant_of_generated_in_range (d : Draws) (level : Z) :
  valid_draws d -> 1 <= level ->
  let c := generateRandomColor d in
  let v := getDifferentColor c level (rChange d) in
  h v = h c /\ (0 <= h c < 360)%R /\
  (40 <= s v <= 90)%R /\ (30 <= l v <= 90)%R.
Proof.
  intros Hd Hl. apply variant_of_generated; [| exact Hl].
  now apply generateRandomColor_generated.
Qed.

Lemma X3_variant_of_generated_in_range_witness :
  let c := generateRandomColor (mkDraws 0 0 0 0 0) in
  let v := getDifferentColor c 1 (rChange (mkDraws 0 0 0 0 0)) in
  h v = h c /\ (0 <= h c < 360)%R /\
  (40 <= s v <= 90)%R /\ (30 <= l v <= 90)%R.
Proof.
  exact (X3_variant_of_generated_in_range (mkDraws 0 0 0 0 0) 1
           zero_draws_valid ltac:(lia)).
Defined.

(** ** Invariants of the session *)

(** Reduce the projections of an explicit state, and nothing else. *)
Ltac fields :=
  cbv zeta;
  cbn [gameState colors timer score timeLeft level status gridSize
       base diff diffIndex].


Lemma invariant_run_any (P : App -> Prop) :
  (forall a e, session_invariant a -> P a -> P (step a e)) ->
  forall events a, session_invariant a -> P a -> P (run a events).
Proof.
  intros Hstep events. induction events as [| e es IH]; intros a Hs Hp;
    [exact Hp |].
  rewrite run_cons.
  apply IH; [now apply session_invariant_step | now apply Hstep].
Qed.

Lemma bookkeeping_invariant_step (a : App) (e : Event) :
  session_invariant a -> bookkeeping_invariant a ->
  bookkeeping_invariant (step a e).
Proof.
  unfold bookkeeping_invariant, INITIAL_TIME.
  intros [(Ht & Hs & Hl) _] (Hlv & Hg & Hb). destruct e as [d | index d |].
  - rewrite step_Start; fields. repeat split; lia.
  - click_cases a index d Hst Hne; fields; repeat split;
      first [lia | assumption].
  - tick_cases a Htr Hle; fields; repeat split; first [lia | assumption].
Qed.

Lemma bookkeeping_invariant_initial : bookkeeping_invariant initialApp.
Proof. unfold bookkeeping_invariant; simpl. repeat split; lia. Qed.

Lemma bookkeeping_reachable (events : list Event) :
  bookkeeping_invariant (run initialApp events).
Proof.
  apply (invariant_run_any bookkeeping_invariant).
  - intros a e. apply bookkeeping_invariant_step.
  - apply session_invariant_initial.
  - apply bookkeeping_invariant_initial.
Qed.

Lemma session_reachable (events : list Event) :
  session_invariant (run initialApp events).
Proof. apply session_invariant_run, session_invariant_initial. Qed.

(** X4.  In every state reached from the initial one the level is one more
    than the score, the score is not negative, and the grid size is the one
    of the level, [min(8, 2 + floor(level/3))], between 2 and 8. *)
Theorem X4_level_follows_score (events : list Event) :
  let g := gameState (run initialApp events) in
  0 <= score g /\ level g = score g + 1 /\
  gridSize g = Z.min 8 (2 + level g / 3) /\ 2 <= gridSize g <= 8.
Proof.
  cbv zeta.
  destruct (bookkeeping_reachable events) as (Hl & Hg & _).
  destruct (session_reachable events) as [(_ & Hs & Hlv) _].
  repeat split; try assumption; rewrite Hg; apply newGridSize_range; lia.
Qed.

(** X5.  In every state reached from the initial one the clock holds between
    0 and 30 seconds plus one second per point scored: the bonus of a correct
    selection is the only way to gain time. *)
Theorem X5_time_bank_bounded (events : list Event) :
  let g := gameState (run initialApp events) in
  0 <= timeLeft g <= 30 + score g.
Proof.
  cbv zeta.
  destruct (bookkeeping_reachable events) as (_ & _ & Hb).
  destruct (session_reachable events) as [(Ht & _ & _) _].
  unfold INITIAL_TIME in Hb. lia.
Qed.

(** X6.  The interval follows the status: in every state reached from the
    initial one it is live exactly while the status is playing, and a round
    that is over has no time left. *)
Theorem X6_interval_follows_status (events : list Event) :
  let a := run initialApp events in
  (timer a = true <-> status (gameState a) = playing) /\
  (status (gameState a) = gameover -> timeLeft (gameState a) = 0).
Proof.
  cbv zeta. destruct (session_reachable events) as [_ Htm].
  unfold timer_matches_status in Htm.
  destruct (status (gameState (run initialApp events)));
    [ | | destruct Htm as [Htm Ht0]];
    (split; [split; intros; congruence | intros; first [congruence | assumption]]).
Qed.

(** The status never goes back to idle, and it is not left by a selection. *)
Lemma step_status_idle (a : App) (e : Event) :
  status (gameState (step a e)) = idle -> status (gameState a) = idle.
Proof.
  destruct e as [d | index d |].
  - rewrite step_Start; simpl. discriminate.
  - click_cases a index d Hst Hne; simpl; congruence.
  - tick_cases a Htr Hle; simpl; congruence.
Qed.

Lemma step_Click_status (a : App) (index : Z) (d : Draws) :
  status (gameState (step a (Click index d))) = status (gameState a).
Proof. click_cases a index d Hst Hne; simpl; congruence. Qed.

Lemma idle_is_initial_step (a : App) (e : Event) :
  session_invariant a ->
  (status (gameState a) = idle -> a = initialApp) ->
  status (gameState (step a e)) = idle -> step a e = initialApp.
Proof.
  intros [_ Htm] Hinit Hidle.
  assert (Ha := step_status_idle a e Hidle). specialize (Hinit Ha).
  destruct e as [d | index d |].
  - rewrite step_Start in Hidle; simpl in Hidle. discriminate.
  - rewrite step_Click_not_playing by congruence. exact Hinit.
  - unfold timer_matches_status in Htm. rewrite Ha in Htm.
    rewrite step_Tick_cleared by exact Htm. exact Hinit.
Qed.

Lemma not_idle_run (events : list Event) (a : App) :
  status (gameState a) <> idle -> status (gameState (run a events)) <> idle.
Proof.
  revert a. induction events as [| e es IH]; intros a Ha; [exact Ha |].
  rewrite run_cons. apply IH. intros H. now apply Ha, (step_status_idle a e).
Qed.

(** X7.  Before the first start nothing happens: a state reached from the
    initial one whose status is idle is the initial state itself (selections
    and ticks were ignored), and once the status has left idle no sequence of
    events brings it back. *)
Theorem X7_idle_only_before_start (events more : list Event) :
  let a := run initialApp events in
  (status (gameState a) = idle -> a = initialApp) /\
  (status (gameState a) <> idle ->
   status (gameState (run a more)) <> idle).
Proof.
  cbv zeta. split; [| apply not_idle_run].
  apply (invariant_run_any
           (fun a => status (gameState a) = idle -> a = initialApp)).
  - intros a e Hs Hp. now apply idle_is_initial_step.
  - apply session_invariant_initial.
  - reflexivity.
Qed.

(** X8.  A restart is a start: from every state reached from the initial one,
    [startGame] leads to the very state it leads to from the initial state
    (score 0, 30 seconds, level 1, grid 2, the colours of the draws, a live
    interval), whatever was played before. *)
Theorem X8_restart_is_start (events : list Event) (d : Draws) :
  step (run initialApp events) (Start d) = step initialApp (Start d).
Proof.
  rewrite !step_Start. cbv zeta. f_equal.
  destruct (session_reachable events) as [_ Htm].
  unfold timer_matches_status in Htm.
  destruct (status (gameState (run initialApp events))); simpl; tauto.
Qed.

(** X9.  A selection never changes the status, so a penalty cannot end the
    round even when it empties the clock; the only event that takes a state
    into gameover is a tick of the live interval with at most one second
    left. *)
Theorem X9_only_a_tick_ends_the_round (a : App) :
  (forall index d,
     status (gameState (step a (Click index d))) = status (gameState a)) /\
  (forall e, status (gameState (step a e)) = gameover ->
             status (gameState a) <> gameover ->
             e = Tick /\ timer a = true /\ timeLeft (gameState a) <= 1).
Proof.
  split; [intros; apply step_Click_status |].
  intros e Hgo Hne. destruct e as [d | index d |].
  - rewrite step_Start in Hgo; simpl in Hgo. discriminate.
  - rewrite step_Click_status in Hgo. contradiction.
  - revert Hgo. tick_cases a Htr Hle; simpl; intros Hgo;
      [repeat split; lia | contradiction | contradiction].
Qed.

(** ** The countdown *)

Lemma ticks_count_down (n : nat) (a : App) :
  timer a = true -> Z.of_nat n < timeLeft (gameState a) ->
  gameState (run a (repeat Tick n)) =
    {| score := score (gameState a);
       timeLeft := timeLeft (gameState a) - Z.of_nat n;
       level := level (gameState a);
       status := status (gameState a);
       gridSize := gridSize (gameState a) |} /\
  colors (run a (repeat Tick n)) = colors a /\
  timer (run a (repeat Tick n)) = true.
Proof.
  revert a. induction n as [| n IH]; intros a Ht Hl.
  - simpl run. repeat split; [| exact Ht].
    destruct (gameState a); fields. f_equal. simpl. lia.
  - change (repeat Tick (S n)) with (Tick :: repeat Tick n).
    rewrite run_cons, (step_Tick_decrement a Ht) by lia.
    match goal with
    | |- context [run ?x (repeat Tick n)] =>
        destruct (IH x eq_refl) as (Hg & Hc & Htm); [fields; lia |]
    end.
    rewrite Hg, Hc, Htm. fields. repeat split. f_equal. lia.
Qed.

Lemma ticks_end_round (n : nat) (a : App) :
  timer a = true -> Z.max 1 (timeLeft (gameState a)) <= Z.of_nat n ->
  run a (repeat Tick n) =
  {| gameState := {| score := score (gameState a);
                     timeLeft := 0;
                     level := level (gameState a);
                     status := gameover;
                     gridSize := gridSize (gameState a) |};
     colors := colors a;
     timer := false |}.
Proof.
  intros Ht Hn.
  set (k := Z.to_nat (Z.max 1 (timeLeft (gameState a)))).
  assert (Hk : (1 <= k)%nat) by (unfold k; lia).
  replace n with (k + (n - k))%nat by (unfold k; lia).
  rewrite repeat_app, run_app.
  assert (Hend : run a (repeat Tick k) =
    {| gameState := {| score := score (gameState a); timeLeft := 0;
                       level := level (gameState a); status := gameover;
                       gridSize := gridSize (gameState a) |};
       colors := colors a; timer := false |}).
  { destruct (Z_le_gt_dec (timeLeft (gameState a)) 1) as [Hl | Hl].
    - replace k with 1%nat by (unfold k; lia).
      simpl repeat. rewrite run_cons. simpl run.
      now apply step_Tick_gameover.
    - replace k with (S (k - 1)) by lia.
      apply ticks_run_out; [exact Ht | unfold k; lia]. }
  rewrite Hend. now apply ticks_after_clear.
Qed.

(** X10.  Left alone, the round runs out: from a reached state with status
    playing and [t] seconds left, [n < t] ticks without a selection leave
    [t - n] seconds and the status playing, and [max(1, t)] ticks or more end
    in gameover with no time left and the interval cleared; score, level,
    grid and colours are as before. *)
Theorem X10_countdown (events : list Event) (n : nat) :
  let a := run initialApp events in
  let g := gameState a in
  let a' := run a (repeat Tick n) in
  status g = playing ->
  (Z.of_nat n < timeLeft g ->
   gameState a' = mkGameState (score g) (timeLeft g - Z.of_nat n) (level g)
                              playing (gridSize g)) /\
  (Z.max 1 (timeLeft g) <= Z.of_nat n ->
   gameState a' = mkGameState (score g) 0 (level g) gameover (gridSize g) /\
   timer a' = false) /\
  (Z.of_nat n < timeLeft g \/ Z.max 1 (timeLeft g) <= Z.of_nat n ->
   colors a' = colors a).
Proof.
  cbv zeta. intros Hst.
  destruct (session_reachable events) as [_ Htm].
  unfold timer_matches_status in Htm. rewrite Hst in Htm.
  split; [| split].
  - intros Hn.
    destruct (ticks_count_down n _ Htm Hn) as (Hg & _ & _).
    now rewrite Hg, Hst.
  - intros Hn. now rewrite (ticks_end_round n _ Htm Hn).
  - intros [Hn | Hn].
    + now destruct (ticks_count_down n _ Htm Hn) as (_ & Hc & _).
    + now rewrite (ticks_end_round n _ Htm Hn).
Qed.

Lemma X10_countdown_witness :
  let a := run initialApp [Start (mkDraws 0 0 0 0 0)] in
  gameState (run a (repeat Tick 7)) =
  mkGameState (score (gameState a)) (timeLeft (gameState a) - Z.of_nat 7)
              (level (gameState a)) playing (gridSize (gameState a)).
Proof.
  refine (proj1 (X10_countdown [Start (mkDraws 0 0 0 0 0)] 7 eq_refl) _).
  reflexivity.
Defined.

(** ** The cells of the grid *)

Lemma click_scores_iff (a : App) (index : Z) (d : Draws) :
  status (gameState a) = playing ->
  score (gameState (step a (Click index d))) = score (gameState a) + 1 <->
  index = diffIndex (colors a).
Proof.
  intros Hst. destruct (Z.eq_dec index (diffIndex (colors a))) as [-> | Hne].
  - rewrite (step_Click_correct a d Hst). fields. tauto.
  - rewrite (step_Click_incorrect a d index Hst Hne). fields.
    split; intros; [lia | contradiction].
Qed.

(** X11.  In every state reached with draws in [0,1) and status playing,
    exactly one of the [gridSize * gridSize] cells shown is a correct
    selection, i.e. one whose click raises the score. *)
Theorem X11_one_winning_cell (events : list Event) (d : Draws) :
  Forall valid_event events ->
  let a := run initialApp events in
  let n := gridSize (gameState a) in
  status (gameState a) = playing ->
  exists! i : Z,
    0 <= i < n * n /\
    score (gameState (step a (Click i d))) = score (gameState a) + 1.
Proof.
  intros Hv. cbv zeta. intros Hst.
  destruct (invariants_run events initialApp Hv
              session_invariant_initial level_invariant_initial) as [_ Hl].
  destruct Hl as (_ & Hi & _); [congruence |].
  exists (diffIndex (colors (run initialApp events))). split.
  - split; [exact Hi | now apply click_scores_iff].
  - intros j [_ Hj]. symmetry. now apply click_scores_iff in Hj.
Qed.

Lemma X11_one_winning_cell_witness :
  let a := run initialApp [Start (mkDraws 0 0 0 0 0)] in
  exists! i : Z,
    0 <= i < gridSize (gameState a) * gridSize (gameState a) /\
    score (gameState (step a (Click i (mkDraws 0 0 0 0 0)))) =
    score (gameState a) + 1.
Proof.
  refine (X11_one_winning_cell [Start (mkDraws 0 0 0 0 0)]
            (mkDraws 0 0 0 0 0) _ eq_refl).
  repeat constructor; simpl; lra.
Defined.

(** ** The colours on display *)






(** ** Repeated misses *)

Lemma misses_drain (n : nat) (a : App) (index : Z) (d : Draws) :
  status (gameState a) = playing -> index <> diffIndex (colors a) ->
  0 <= timeLeft (gameState a) ->
  run a (repeat (Click index d) n) =
  {| gameState := {| score := score (gameState a);
                     timeLeft := Z.max 0 (timeLeft (gameState a) - 3 * Z.of_nat n);
                     level := level (gameState a);
                     status := playing;
                     gridSize := gridSize (gameState a) |};
     colors := colors a;
     timer := timer a |}.
Proof.
  revert a. induction n as [| n IH]; intros a Hst Hne Ht.
  - simpl run. destruct a as [[sc tl lv st gs] cs tm]; simpl in *.
    subst st. do 2 f_equal. lia.
  - change (repeat (Click index d) (S n))
      with (Click index d :: repeat (Click index d) n).
    rewrite run_cons, (step_Click_incorrect a d index Hst Hne).
    rewrite IH; fields; [| exact Hst | exact Hne | lia].
    do 2 f_equal. lia.
Qed.

(** X13.  Misses add up and stop at zero: from a state with status playing
    and a clock that is not negative, [n] selections of a cell that is not
    the variant leave [max(0, timeLeft - 3n)] seconds; the status stays
    playing even at 0, and score, level, grid, colours and interval are
    untouched. *)
Theorem X13_misses_add_up (a : App) (index : Z) (d : Draws) (n : nat) :
  status (gameState a) = playing -> index <> diffIndex (colors a) ->
  0 <= timeLeft (gameState a) ->
  run a (repeat (Click index d) n) =
  {| gameState := {| score := score (gameState a);
                     timeLeft := Z.max 0 (timeLeft (gameState a) - 3 * Z.of_nat n);
                     level := level (gameState a);
                     status := playing;
                     gridSize := gridSize (gameState a) |};
     colors := colors a;
     timer := timer a |}.
Proof. apply misses_drain. Qed.

Lemma X13_misses_add_up_witness :
  let a := {| gameState := {| score := 0; timeLeft := 30; level := 1;
                              status := playing; gridSize := 2 |};
              colors := {| base := mkColor 10 50 50; diff := mkColor 10 50 60;
                           diffIndex := 3 |};
              timer := true |} in
  run a (repeat (Click 0 (mkDraws 0 0 0 0 0)) 11) =
  {| gameState := {| score := 0; timeLeft := Z.max 0 (30 - 3 * Z.of_nat 11);
                     level := 1; status := playing; gridSize := 2 |};
     colors := colors a; timer := true |}.
Proof.
  exact (X13_misses_add_up
    {| gameState := {| score := 0; timeLeft := 30; level := 1;
                       status := playing; gridSize := 2 |};
       colors := {| base := mkColor 10 50 50; diff := mkColor 10 50 60;
                    diffIndex := 3 |};
       timer := true |}
    0 (mkDraws 0 0 0 0 0) 11 eq_refl ltac:(discriminate) ltac:(discriminate)).
Defined.

(** ** What the draws can produce *)

(** A draw that [Math.floor(Math.random() * N)] turns into [i]. *)
Lemma draw_for_index (i N : Z) :
  0 <= i < N ->
  unit_interval ((IZR i + / 2) / IZR N) /\
  Math_floor ((IZR i + / 2) / IZR N * IZR N) = i.
Proof.
  intros [H0 H1].
  assert (Hi0 : (0 <= IZR i)%R) by now apply IZR_le.
  assert (Hi1 : (IZR i + 1 <= IZR N)%R)
    by (rewrite <- plus_IZR; apply IZR_le; lia).
  assert (HN : (0 < IZR N)%R) by lra.
  split.
  - split.
    + apply Rmult_le_pos; [lra | left; now apply Rinv_0_lt_compat].
    + apply Rmult_lt_reg_r with (IZR N); [exact HN |].
      unfold Rdiv. rewrite Rmult_assoc, Rinv_l by lra. lra.
  - unfold Math_floor, Rdiv. rewrite Rmult_assoc, Rinv_l by lra.
    apply Zfloor_eq. lra.
Qed.

(** X14.  Every cell can be the variant: for a level from 0 on and any cell
    index of its grid there are draws in [0,1) for which [generateLevel]
    puts the variant at that index. *)
Theorem X14_every_cell_can_be_variant (L i : Z) (a : App) :
  0 <= L -> 0 <= i < newGridSize L * newGridSize L ->
  exists d : Draws,
    valid_draws d /\ diffIndex (colors (generateLevel L d a)) = i.
Proof.
  intros HL Hi.
  destruct (draw_for_index i (newGridSize L * newGridSize L) Hi) as [Hu Hf].
  exists (mkDraws 0 0 0 0 ((IZR i + / 2) / IZR (newGridSize L * newGridSize L))).
  split; [| exact Hf].
  repeat split; simpl; try lra; apply Hu.
Qed.

Lemma X14_every_cell_can_be_variant_witness :
  exists d : Draws,
    valid_draws d /\ diffIndex (colors (generateLevel 9 d initialApp)) = 24.
Proof.
  refine (X14_every_cell_can_be_variant 9 24 initialApp _ _).
  - discriminate.
  - split; [discriminate | reflexivity].
Defined.

(** X15.  [generateRandomColor] reaches all of its range: every colour with
    whole-number hue in 0..359, saturation in 40..79 and lightness in 30..69
    is produced by some draws in [0,1). *)
Theorem X15_every_generated_color_is_drawn (hz sz lz : Z) :
  0 <= hz <= 359 -> 40 <= sz <= 79 -> 30 <= lz <= 69 ->
  exists d : Draws,
    valid_draws d /\
    generateRandomColor d = mkColor (IZR hz) (IZR sz) (IZR lz).
Proof.
  intros Hh Hs Hl.
  destruct (draw_for_index hz 360 ltac:(lia)) as [Uh Fh].
  destruct (draw_for_index (sz - 40) 40 ltac:(lia)) as [Us Fs].
  destruct (draw_for_index (lz - 30) 40 ltac:(lia)) as [Ul Fl].
  exists (mkDraws ((IZR hz + / 2) / 360) ((IZR (sz - 40) + / 2) / 40)
                  ((IZR (lz - 30) + / 2) / 40) 0 0).
  split.
  - repeat split; simpl; try lra; first [apply Uh | apply Us | apply Ul].
  - unfold generateRandomColor; simpl. rewrite Fh, Fs, Fl.
    f_equal; f_equal; lia.
Qed.

Lemma X15_every_generated_color_is_drawn_witness :
  exists d : Draws,
    valid_draws d /\
    generateRandomColor d = mkColor (IZR 200) (IZR 55) (IZR 42).
Proof.
  refine (X15_every_generated_color_is_drawn 200 55 42 _ _ _);
    split; discriminate.
Defined.

(** * The variant colour up to rounding *)

Section Within.

Open Scope R_scope.

Import Rounded.

Lemma eps_bounds : 0 < eps /\ eps <= / 1000000000000.
Proof. unfold eps. split; lra. Qed.

Lemma within_weaken (lo hi lo' hi' a b : R) :
  0 <= b -> lo' <= lo -> hi <= hi' -> within lo hi a b -> within lo' hi' a b.
Proof.
  unfold within. intros Hb Hlo Hhi [H1 H2]. split.
  - apply Rle_trans with (b * lo); [now apply Rmult_le_compat_l | exact H1].
  - apply Rle_trans with (b * hi); [exact H2 | now apply Rmult_le_compat_l].
Qed.

Lemma within_pos (lo hi a b : R) :
  0 < b -> 0 < lo -> within lo hi a b -> 0 < a.
Proof.
  unfold within. intros Hb Hlo [H1 _].
  apply Rlt_le_trans with (b * lo); [now apply Rmult_lt_0_compat | exact H1].
Qed.

Lemma within_trans (lo1 hi1 lo2 hi2 a b c : R) :
  0 <= c -> 0 <= lo1 -> 0 <= hi1 -> 0 <= lo2 ->
  within lo1 hi1 a b -> within lo2 hi2 b c ->
  within (lo2 * lo1) (hi2 * hi1) a c.
Proof.
  unfold within. intros Hc Hl1 Hh1 Hl2 [A1 A2] [B1 B2].
  split.
  - apply Rle_trans with (b * lo1); [| exact A1].
    rewrite <- Rmult_assoc. now apply Rmult_le_compat_r.
  - apply Rle_trans with (b * hi1); [exact A2 |].
    rewrite <- Rmult_assoc. now apply Rmult_le_compat_r.
Qed.

Lemma within_mult (lo1 hi1 lo2 hi2 a b x y : R) :
  0 <= x -> 0 <= y -> 0 <= lo1 -> 0 <= lo2 ->
  within lo1 hi1 a x -> within lo2 hi2 b y ->
  within (lo1 * lo2) (hi1 * hi2) (a * b) (x * y).
Proof.
  unfold within. intros Hx Hy Hl1 Hl2 [A1 A2] [B1 B2].
  assert (Ha : 0 <= a)
    by (apply Rle_trans with (x * lo1); [now apply Rmult_le_pos | exact A1]).
  assert (Hb : 0 <= b)
    by (apply Rle_trans with (y * lo2); [now apply Rmult_le_pos | exact B1]).
  split.
  - replace (x * y * (lo1 * lo2)) with ((x * lo1) * (y * lo2)) by ring.
    apply Rmult_le_compat; try assumption; now apply Rmult_le_pos.
  - replace (x * y * (hi1 * hi2)) with ((x * hi1) * (y * hi2)) by ring.
    now apply Rmult_le_compat.
Qed.

Lemma within_div (lo hi c a b : R) :
  0 < c -> 0 < b -> 0 < lo -> lo <= hi ->
  within lo hi a b -> within (/ hi) (/ lo) (c / a) (c / b).
Proof.
  unfold within. intros Hc Hb Hlo Hhi [A1 A2].
  assert (Hh : 0 < hi) by lra.
  assert (Hbl : 0 < b * lo) by now apply Rmult_lt_0_compat.
  assert (Hbh : 0 < b * hi) by now apply Rmult_lt_0_compat.
  assert (Ha : 0 < a) by lra.
  unfold Rdiv. split.
  - replace (c * / b * / hi) with (c * / (b * hi)) by (field; lra).
    apply Rmult_le_compat_l; [lra |]. now apply Rinv_le_contravar.
  - replace (c * / b * / lo) with (c * / (b * lo)) by (field; lra).
    apply Rmult_le_compat_l; [lra |]. now apply Rinv_le_contravar.
Qed.

End Within.

Section Logarithm.

Open Scope R_scope.

Lemma ln_1_plus (x : R) : 0 < x -> ln (1 + x) < x.
Proof.
  intros Hx. rewrite <- (ln_exp x) at 2.
  apply ln_increasing; [lra | apply exp_ineq1; lra].
Qed.

Lemma ln_1_minus (x : R) : 0 < x <= / 2 -> - (2 * x) < ln (1 - x).
Proof.
  intros [H0 H1].
  assert (Hy : / (1 - x) <= 1 + 2 * x).
  { apply Rmult_le_reg_r with (1 - x); [lra |].
    rewrite Rinv_l by lra. nra. }
  assert (Hi : 0 < / (1 - x)) by (apply Rinv_0_lt_compat; lra).
  assert (Hl : ln (/ (1 - x)) < 2 * x).
  { apply Rle_lt_trans with (ln (1 + 2 * x)).
    - now apply ln_le_mono.
    - apply ln_1_plus; lra. }
  rewrite ln_Rinv in Hl by lra. lra.
Qed.

Lemma Math_log2_le_53 (n : R) : 2 <= n <= 9007199254740992 -> 1 <= Math_log2 n <= 53.
Proof.
  intros [H2 H53]. split; [now apply Math_log2_ge_1 |].
  assert (Hln := ln2_pos).
  assert (H : ln n <= ln (2 ^ 53)) by (apply ln_le_mono; lra).
  rewrite ln_pow in H by lra. rewrite INR_IZR_INZ in H. simpl IZR in H.
  unfold Math_log2. apply Rmult_le_reg_r with (ln 2); [exact Hln |].
  unfold Rdiv. rewrite Rmult_assoc, Rinv_l by lra. lra.
Qed.

(** A relative error of [eps] in the argument moves [Math_log2] by at most
    [4 * eps]. *)
Lemma Math_log2_perturbed (n p : R) :
  2 <= n -> Rounded.within (1 - Rounded.eps) (1 + Rounded.eps) p n ->
  Math_log2 n - 4 * Rounded.eps <= Math_log2 p <= Math_log2 n + 4 * Rounded.eps.
Proof.
  intros Hn [Hlo Hhi]. destruct eps_bounds as [He0 He1].
  set (e := Rounded.eps) in *.
  assert (Hln := ln2_pos). assert (Hln2 := ln_lt_2).
  assert (Hp : 0 < p) by nra.
  assert (Hup : ln p <= ln n + e).
  { apply Rle_trans with (ln (n * (1 + e))); [apply ln_le_mono; lra |].
    rewrite ln_mult by lra. assert (H := ln_1_plus e He0). lra. }
  assert (Hdn : ln n - 2 * e <= ln p).
  { apply Rle_trans with (ln (n * (1 - e))); [| apply ln_le_mono; nra].
    rewrite ln_mult by lra. assert (H := ln_1_minus e ltac:(lra)). lra. }
  assert (Hk : 0 < / ln 2 < 2).
  { split; [now apply Rinv_0_lt_compat |].
    apply Rmult_lt_reg_r with (ln 2); [exact Hln |].
    rewrite Rinv_l by lra. lra. }
  unfold Math_log2, Rdiv. set (k := / ln 2) in *.
  split; nra.
Qed.

End Logarithm.

Section RoundedVariant.

Open Scope R_scope.

Variables (rnd log2F : R -> R).

Hypothesis Hrnd : Rounded.rounds rnd.
Hypothesis Hlog : Rounded.approximates_log2 log2F.

Lemma rnd_enclosed (x : R) :
  / 2 <= x <= 1152921504606846976 ->
  x * (1 - Rounded.eps) <= rnd x <= x * (1 + Rounded.eps).
Proof.
  intros Hx. assert (H := Hrnd x).
  rewrite (Rabs_pos_eq x) in H by lra. specialize (H Hx).
  revert H. unfold Rabs. destruct (Rcase_abs (rnd x - x)); intros H; lra.
Qed.

Lemma log2F_enclosed (x : R) :
  3 / 2 <= x <= 1152921504606846976 ->
  Math_log2 x * (1 - Rounded.eps) <= log2F x <= Math_log2 x * (1 + Rounded.eps).
Proof.
  intros Hx. assert (H := Hlog x Hx).
  revert H. unfold Rabs. destruct (Rcase_abs (log2F x - Math_log2 x));
    intros H; lra.
Qed.

(** The rounded quotient is the exact one up to fifteen roundings. *)
Lemma rawDiff_rounded (level : Z) :
  (1 <= level < 9007199254740992)%Z ->
  rawDiff level * (1 - 15 * Rounded.eps)
  <= rnd (BASE_DIFFERENCE /
          rnd (1 + rnd (log2F (rnd (IZR level + 1)) * rnd 0.8)))
  <= rawDiff level * (1 + 15 * Rounded.eps).
Proof.
  intros [Hl1 Hl2].
  assert (Hden := denominator_ge level Hl1).
  apply IZR_le in Hl1.
  assert (Hl3 : IZR level <= 9007199254740991) by (apply IZR_le; lia).
  unfold rawDiff, BASE_DIFFERENCE.
  set (n := IZR level + 1) in *.
  assert (Hn : 2 <= n <= 9007199254740992) by (unfold n; lra).
  assert (HL := Math_log2_le_53 n Hn).
  assert (Hp := rnd_enclosed n ltac:(lra)).
  assert (HLp := Math_log2_perturbed n (rnd n) ltac:(lra) Hp).
  set (p := rnd n) in *. set (L := Math_log2 n) in *.
  unfold Rounded.eps in *.
  assert (Hx := log2F_enclosed p ltac:(lra)). unfold Rounded.eps in Hx.
  set (x := log2F p) in *.
  assert (Hc := rnd_enclosed 0.8 ltac:(lra)). unfold Rounded.eps in Hc.
  set (c := rnd 0.8) in *.
  assert (Ht : Rounded.within ((1 - 6 * / 1099511627776) * (1 - / 1099511627776))
                 ((1 + 6 * / 1099511627776) * (1 + / 1099511627776))
                 (x * c) (L * 0.8)).
  { apply within_mult; try lra; unfold Rounded.within; lra. }
  unfold Rounded.within in Ht.
  assert (Hph := rnd_enclosed (x * c) ltac:(lra)). unfold Rounded.eps in Hph.
  set (ph := rnd (x * c)) in *.
  assert (Hq := rnd_enclosed (1 + ph) ltac:(lra)). unfold Rounded.eps in Hq.
  set (q := rnd (1 + ph)) in *.
  assert (Hz : Rounded.within (/ (1 + 12 * / 1099511627776))
                 (/ (1 - 12 * / 1099511627776)) (40 / q) (40 / (1 + L * 0.8))).
  { apply within_div; try lra. unfold Rounded.within. lra. }
  apply (within_weaken _ _ (1 - 13 * / 1099511627776)
           (1 + 13 * / 1099511627776)) in Hz.
  - unfold Rounded.within in Hz.
    assert (Hr : 9 / 10 <= 40 / (1 + L * 0.8) <= 23).
    { unfold Rdiv. split.
      - apply Rle_trans with (40 * / 44); [lra |].
        apply Rmult_le_compat_l; [lra |]. apply Rinv_le_contravar; lra.
      - apply Rle_trans with (40 * / 1.8); [| lra].
        apply Rmult_le_compat_l; [lra |]. apply Rinv_le_contravar; lra. }
    assert (Hr' := rnd_enclosed (40 / q) ltac:(lra)).
    unfold Rounded.eps in Hr'. lra.
  - apply Rlt_le, Rdiv_lt_0_compat; lra.
  - apply Rmult_le_reg_r with (1 + 12 * / 1099511627776); [lra |].
    rewrite Rinv_l by lra. lra.
  - apply Rmult_le_reg_r with (1 - 12 * / 1099511627776); [lra |].
    rewrite Rinv_l by lra. lra.
Qed.

Lemma Rmax_2_close (a b t : R) :
  b - t <= a <= b + t -> Rmax 2 b - t <= Rmax 2 a <= Rmax 2 b + t.
Proof.
  intros H. unfold Rmax.
  destruct (Rle_dec 2 a), (Rle_dec 2 b); lra.
Qed.

(** The rounded magnitude: between 2 and 23, and the exact one up to
    [334 * eps]. *)
Lemma levelDiff_rounded (level : Z) :
  (1 <= level < 9007199254740992)%Z ->
  2 <= Rounded.levelDiff rnd log2F level <= 23 /\
  levelDiff level - 334 * Rounded.eps
  <= Rounded.levelDiff rnd log2F level
  <= levelDiff level + 334 * Rounded.eps.
Proof.
  intros Hl.
  assert (H := rawDiff_rounded level Hl).
  assert (Hm := levelDiff_le_first level ltac:(lia)).
  assert (Hpos := rawDiff_pos level ltac:(lia)).
  assert (Hle : rawDiff level <= levelDiff level)
    by (rewrite levelDiff_rawDiff; apply Rmax_r).
  assert (Hc : levelDiff level - 334 * Rounded.eps
               <= Rounded.levelDiff rnd log2F level
               <= levelDiff level + 334 * Rounded.eps).
  { unfold Rounded.levelDiff. rewrite levelDiff_rawDiff.
    apply Rmax_2_close. unfold Rounded.eps in *. lra. }
  split; [| exact Hc].
  split; [apply Rmax_l | unfold Rounded.eps in *; lra].
Qed.

(** One channel moved by a rounded magnitude [d]. *)
Lemma channel_rounded (c0 d m : R) :
  0 <= c0 <= 100 -> 2 <= d <= 23 ->
  m - 334 * Rounded.eps <= d <= m + 334 * Rounded.eps ->
  let v := if Rgtb (rnd (c0 + d)) 90 then rnd (c0 - d) else rnd (c0 + d) in
  v <> c0 /\ Rabs (Rabs (v - c0) - m) <= / 1000000000.
Proof.
  intros Hc Hd Hm. cbv zeta.
  assert (Hup := rnd_enclosed (c0 + d) ltac:(lra)).
  unfold Rgtb. unfold Rounded.eps in *.
  destruct (Rlt_dec 90 (rnd (c0 + d))) as [Hgt | Hle].
  - assert (Hdn := rnd_enclosed (c0 - d) ltac:(lra)).
    unfold Rounded.eps in Hdn.
    split; [lra |].
    unfold Rabs. destruct (Rcase_abs (rnd (c0 - d) - c0)); [| lra].
    destruct (Rcase_abs (- (rnd (c0 - d) - c0) - m)); lra.
  - split; [lra |].
    unfold Rabs. destruct (Rcase_abs (rnd (c0 + d) - c0)); [lra |].
    destruct (Rcase_abs (rnd (c0 + d) - c0 - m)); lra.
Qed.

Lemma getDifferentColor_rounded (base : Color) (level : Z) (random : R) :
  (1 <= level < 9007199254740992)%Z ->
  0 <= l base <= 100 -> 0 <= s base <= 100 ->
  let v := Rounded.getDifferentColor rnd log2F base level random in
  let m := levelDiff level in
  h v = h base /\
  ((l v <> l base /\
    Rabs (Rabs (l v - l base) - m) <= / 1000000000 /\ s v = s base) \/
   (s v <> s base /\
    Rabs (Rabs (s v - s base) - m) <= / 1000000000 /\ l v = l base)).
Proof.
  intros Hlev Hl Hs. cbv zeta. split; [reflexivity |].
  destruct (levelDiff_rounded level Hlev) as [Hd Hm].
  unfold Rounded.getDifferentColor; simpl.
  destruct (Rgtb random 0.5); simpl.
  - left. destruct (channel_rounded (l base) _ _ Hl Hd Hm) as [A B].
    repeat split; assumption.
  - right. destruct (channel_rounded (s base) _ _ Hs Hd Hm) as [A B].
    repeat split; assumption.
Qed.

End RoundedVariant.

(** ** The claim about the variant colour *)

Lemma rounds_exact : Rounded.rounds (fun x : R => x).
Proof.
  intros x _. replace (x - x)%R with 0%R by lra. rewrite Rabs_R0.
  apply Rmult_le_pos; [left; apply eps_bounds | apply Rabs_pos].
Qed.

Lemma rounds_fixed_point : Rounded.rounds Rounded.fixed_point.
Proof.
  intros x [Hx _]. unfold Rounded.fixed_point, Rounded.eps.
  assert (B := Zfloor_bound (x * 4398046511104 + / 2)).
  set (k := IZR (Zfloor (x * 4398046511104 + / 2))) in *.
  assert (E : (- / 8796093022208 <= k / 4398046511104 - x
               <= / 8796093022208)%R) by (split; lra).
  apply Rle_trans with (/ 8796093022208)%R; [apply Rabs_le; lra | lra].
Qed.

Lemma approximates_log2_exact : Rounded.approximates_log2 Math_log2.
Proof.
  intros x Hx. replace (Math_log2 x - Math_log2 x)%R with 0%R by lra.
  rewrite Rabs_R0.
  apply Rmult_le_pos; [left; apply eps_bounds |].
  assert (H := ln2_pos). unfold Math_log2.
  apply Rmult_le_pos; [| left; now apply Rinv_0_lt_compat].
  rewrite <- ln_1. apply ln_le_mono; lra.
Qed.

(** Without rounding the rounded function is the exact one. *)
Lemma getDifferentColor_unrounded (base : Color) (level : Z) (random : R) :
  Rounded.getDifferentColor (fun x => x) Math_log2 base level random =
  getDifferentColor base level random.
Proof. reflexivity. Qed.

(** C1 (as the code has it).  For every base colour with saturation and
    lightness in [0,100] and every positive integer level below [2^53], the
    colour returned by [getDifferentColor], computed with roundings, has the
    hue of the base and differs from it in exactly one of saturation and
    lightness (the other is unchanged); the magnitude of the difference in
    the changed channel is [max(2, 40/(1+log2(level+1)*0.8))] to within
    [10^-9].  It holds for every rounding [rnd] and every [log2F] of
    relative error at most [2^-40]. *)
Theorem C1_variant_differs_up_to_rounding
    (rnd log2F : R -> R) (base : Color) (level : Z) (random : R) :
  Rounded.rounds rnd -> Rounded.approximates_log2 log2F ->
  1 <= level < 9007199254740992 ->
  (0 <= l base <= 100)%R -> (0 <= s base <= 100)%R ->
  let v := Rounded.getDifferentColor rnd log2F base level random in
  let m := Rmax 2 (40 / (1 + ln (IZR level + 1) / ln 2 * 0.8)) in
  h v = h base /\
  ((l v <> l base /\
    (Rabs (Rabs (l v - l base) - m) <= / 1000000000)%R /\ s v = s base) \/
   (s v <> s base /\
    (Rabs (Rabs (s v - s base) - m) <= / 1000000000)%R /\ l v = l base)).
Proof.
  intros Hrnd Hlog Hlev Hl Hs.
  exact (getDifferentColor_rounded rnd log2F Hrnd Hlog base level random
           Hlev Hl Hs).
Qed.

Lemma C1_variant_differs_up_to_rounding_witness :
  let base := mkColor 120 50 60 in
  let v := Rounded.getDifferentColor Rounded.fixed_point Math_log2
             base 1 0.75 in
  let m := Rmax 2 (40 / (1 + ln (IZR 1 + 1) / ln 2 * 0.8)) in
  h v = h base /\
  ((l v <> l base /\
    (Rabs (Rabs (l v - l base) - m) <= / 1000000000)%R /\ s v = s base) \/
   (s v <> s base /\
    (Rabs (Rabs (s v - s base) - m) <= / 1000000000)%R /\ l v = l base)).
Proof.
  refine (C1_variant_differs_up_to_rounding Rounded.fixed_point Math_log2
            (mkColor 120 50 60) 1 0.75 rounds_fixed_point
            approximates_log2_exact _ _ _).
  - lia.
  - simpl; lra.
  - simpl; lra.
Defined.

(** C1, the claim as stated, fails on doubles.  At level 1 ([Math.log2(2)] is
    1) the magnitude the code computes is 22.222222222222221; with lightness
    60 the variant has lightness 82.222222222222229, which is
    22.222222222222229 away from the base (the subtraction is exact), not
    the computed magnitude.  And a base whose lightness is [2^60] absorbs
    the magnitude: no channel of the variant differs from the base. *)
Lemma C1_magnitude_is_rounded :
  let base := Double.mkColor 120 50 60 in
  let v := Double.getDifferentColor Double.log2_at_two base 1 0.75 in
  let diff := Double.levelDiff Double.log2_at_two 1 in
  let huge := Double.mkColor 120 50 0x1p+60 in
  let w := Double.getDifferentColor Double.log2_at_two huge 1 0.75 in
  PrimFloat.eqb diff 0x1.638e38e38e38ep+4 = true /\
  PrimFloat.eqb (Double.l v) 0x1.48e38e38e38e4p+6 = true /\
  PrimFloat.eqb
    (PrimFloat.abs (PrimFloat.sub (Double.l v) (Double.l base))) diff = false /\
  PrimFloat.eqb (Double.h w) (Double.h huge) = true /\
  PrimFloat.eqb (Double.s w) (Double.s huge) = true /\
  PrimFloat.eqb (Double.l w) (Double.l huge) = true.
Proof. vm_compute. repeat split. Qed.
